(** * libvmaf wrapper: sample statistics, result container, runner factory
      and the C entry point ([wrapper/src/libvmaf.cpp])

    A shallow embedding of the translation unit, followed by the properties
    its specification states.

    Modelling conventions.
    - A finite [double] is a real number ([R]) and arithmetic on finite
      values is exact.  The infinities and NaN that a division by zero or the
      square root of a negative number produce are followed through the
      function in which they arise ([extended]); a function that returns one
      of them ends with the outcome [ReturnsNonFinite].  Where rounding
      decides, the statistics are transcribed a second time over binary64
      ([Binary64]).
    - [size_t] is [nat]; [int] is a 32-bit integer: the conversion
      [(int)x] is undefined outside its range ([double_to_int]).
    - A C++ call returns, throws, or has undefined behaviour ([outcome]); a
      method of an object is a function from the object's state to an
      outcome and the state it leaves behind ([method]).
    - [std::map<std::string, StatVector>] is the Standard Library's map over
      the lexicographic order on strings, kept as a strictly sorted list of
      bindings, which is what iteration from [begin()] to [end()] observes.
    - [std::sort] is only known by its contract; [std_sort] is an insertion
      sort with the comparison [<] the code uses. *)

From Stdlib Require Import Reals Lra Lia List String Ascii ZArith Bool.
From Stdlib Require PrimFloat Uint63.
From Stdlib Require Import Permutation Sorted SetoidList.
From Stdlib Require Import FMapList FMapFacts OrderedTypeEx.
Import ListNotations.

Local Open Scope R_scope.

(** ** C++ control flow *)

(** The dynamic type of a thrown object, by the first handler class it is
    convertible to; [other_exception] stands for every type that is neither a
    [VmafException], nor a [std::runtime_error], nor a [std::logic_error]
    (for instance [std::bad_alloc]). *)
Inductive exception_class : Type :=
| VmafException
| runtime_error
| logic_error
| other_exception.

Record exception : Type := mkException {
  exn_class : exception_class;
  what : string
}.

(** The values of a [double] that are not real numbers. *)
Inductive non_finite : Type :=
| plus_infinity
| minus_infinity
| not_a_number.

(** [ReturnsNonFinite v]: the call returns the [double] [v], which the
    model, whose values are reals, does not follow into the caller. *)
Inductive outcome (A : Type) : Type :=
| Returns (a : A)
| Throws (e : exception)
| Undefined
| ReturnsNonFinite (v : non_finite).

Arguments Returns {A} a.
Arguments Throws {A} e.
Arguments Undefined {A}.
Arguments ReturnsNonFinite {A} v.

(** A (non-const) member function: reads and possibly updates the object. *)
Definition method (S A : Type) : Type := S -> outcome A * S.

Definition ret {S A : Type} (a : A) : method S A :=
  fun s => (Returns a, s).

Definition throw {S A : Type} (e : exception) : method S A :=
  fun s => (Throws e, s).

Definition undefined {S A : Type} : method S A :=
  fun s => (Undefined, s).

Definition bind {S A B : Type} (m : method S A) (k : A -> method S B)
  : method S B :=
  fun s =>
    match m s with
    | (Returns a, s') => k a s'
    | (Throws e, s') => (Throws e, s')
    | (Undefined, s') => (Undefined, s')
    | (ReturnsNonFinite v, s') => (ReturnsNonFinite v, s')
    end.

Definition this {S : Type} : method S S :=
  fun s => (Returns s, s).

Definition assign {S : Type} (s' : S) : method S unit :=
  fun _ => (Returns tt, s').

Declare Scope method_scope.
Delimit Scope method_scope with method.
Notation "x <- m ;; k" := (bind m (fun x => k))
  (at level 61, m at next level, right associativity) : method_scope.
Notation "m ;;; k" := (bind m (fun _ => k))
  (at level 61, right associativity) : method_scope.

(** ** Library functions the code calls *)

(** [std::vector<double>::operator[]]: unchecked, undefined out of range. *)
Definition subscript {S : Type} (v : list R) (i : Z) : method S R :=
  if (i <? 0)%Z then undefined
  else match nth_error v (Z.to_nat i) with
       | Some x => ret x
       | None => undefined
       end.

(** [std::vector<double>::at]: checked, throws [std::out_of_range], which is
    a [std::logic_error]; the text of its message is left to the library. *)
Definition checked_at {S : Type} (v : list R) (idx : nat) : method S R :=
  match nth_error v idx with
  | Some x => ret x
  | None => throw (mkException logic_error "std::out_of_range")
  end.

(** [std::sort(first, last)] with [operator<]. *)
Fixpoint sort_insert (x : R) (v : list R) : list R :=
  match v with
  | [] => [x]
  | y :: v' => if Rlt_dec y x then y :: sort_insert x v' else x :: y :: v'
  end.

Fixpoint std_sort (v : list R) : list R :=
  match v with
  | [] => []
  | x :: v' => sort_insert x (std_sort v')
  end.

(** [floor] and [ceil] of <cmath> return a [double]. *)
Definition floor (x : R) : R := IZR (Zfloor x).
Definition ceil (x : R) : R := IZR (Zceil x).

(** The range of [int]. *)
Definition INT_MIN : Z := (- 2 ^ 31)%Z.
Definition INT_MAX : Z := (2 ^ 31 - 1)%Z.

Definition truncate (x : R) : Z :=
  if Rle_dec 0 x then Zfloor x else Zceil x.

(** The conversion [(int)x] truncates toward zero; it is undefined when the
    truncated value is not in the range of [int]. *)
Definition double_to_int {S : Type} (x : R) : method S Z :=
  if ((INT_MIN <=? truncate x) && (truncate x <=? INT_MAX))%Z
  then ret (truncate x)
  else undefined.

(** [pow(x, 2)]. *)
Definition pow2 (x : R) : R := x ^ 2.

(** [sqrt] of <cmath>: NaN on a negative number. *)
Definition sqrt_double {S : Type} (x : R) : method S R :=
  if Rlt_dec x 0 then fun s => (ReturnsNonFinite not_a_number, s)
  else ret (sqrt x).

(** A [double] inside a computation: a real, an infinity or NaN.  The
    operations are those of IEEE 754 without the rounding.  A zero is the
    positive zero: the zero divisors of this program are [-1.0 + 1.0] and
    sums that cancel, which rounding to nearest makes [+0]. *)
Inductive extended : Type :=
| Finite (x : R)
| NonFinite (v : non_finite).

Definition ext_add (a b : extended) : extended :=
  match a, b with
  | Finite x, Finite y => Finite (x + y)
  | NonFinite not_a_number, _ | _, NonFinite not_a_number =>
      NonFinite not_a_number
  | NonFinite plus_infinity, NonFinite minus_infinity
  | NonFinite minus_infinity, NonFinite plus_infinity =>
      NonFinite not_a_number
  | NonFinite v, _ | _, NonFinite v => NonFinite v
  end.

Definition ext_opp (a : extended) : extended :=
  match a with
  | Finite x => Finite (- x)
  | NonFinite plus_infinity => NonFinite minus_infinity
  | NonFinite minus_infinity => NonFinite plus_infinity
  | NonFinite not_a_number => NonFinite not_a_number
  end.

Definition ext_sub (a b : extended) : extended := ext_add a (ext_opp b).

Definition ext_div (a b : extended) : extended :=
  match a, b with
  | NonFinite not_a_number, _ | _, NonFinite not_a_number =>
      NonFinite not_a_number
  | NonFinite _, NonFinite _ => NonFinite not_a_number
  | Finite _, NonFinite _ => Finite 0
  | NonFinite v, Finite y =>
      if Rlt_dec y 0 then ext_opp (NonFinite v) else NonFinite v
  | Finite x, Finite y =>
      if Req_dec_T y 0 then
        if Rlt_dec 0 x then NonFinite plus_infinity
        else if Rlt_dec x 0 then NonFinite minus_infinity
        else NonFinite not_a_number
      else Finite (x / y)
  end.

Definition double_outcome (a : extended) : outcome R :=
  match a with
  | Finite x => Returns x
  | NonFinite v => ReturnsNonFinite v
  end.

(** [return a;] of a function whose result type is [double]. *)
Definition return_double {S : Type} (a : extended) : method S R :=
  fun s => (double_outcome a, s).

(** ** StatVector *)

Module StatVector.

Record t : Type := mk { l : list R }.

(** [StatVector::StatVector()] *)
Definition new : t := mk [].

(** [StatVector::StatVector(std::vector<double> l)] *)
Definition of_vector (v : list R) : t := mk v.

Definition getVector : method t (list R) :=
  (s <- this ;; ret (l s))%method.

Definition _assert_size : method t unit :=
  (s <- this ;;
   if Nat.eqb (length (l s)) 0
   then throw (mkException runtime_error "StatVector size is 0.")
   else ret tt)%method.

Definition mean : method t R :=
  (_assert_size ;;;
   s <- this ;;
   let sum := fold_left (fun sum e => sum + e) (l s) 0 in
   ret (sum / INR (length (l s))))%method.

Definition minimum : method t R :=
  (_assert_size ;;;
   s <- this ;;
   min_0 <- subscript (l s) 0 ;;
   let min_ :=
     fold_left (fun min_ e => if Rlt_dec e min_ then e else min_)
               (l s) min_0 in
   ret min_)%method.

Definition harmonic_mean : method t R :=
  (_assert_size ;;;
   s <- this ;;
   let sum :=
     fold_left
       (fun sum e =>
          ext_add sum (ext_div (Finite 1) (ext_add (Finite e) (Finite 1))))
       (l s) (Finite 0) in
   return_double
     (ext_sub (ext_div (Finite 1) (ext_div sum (Finite (INR (length (l s))))))
              (Finite 1)))%method.

Definition second_moment : method t R :=
  (_assert_size ;;;
   s <- this ;;
   let sum := fold_left (fun sum e => sum + pow2 e) (l s) 0 in
   ret (sum / INR (length (l s))))%method.

(** The local vector [l] of the source shadows the member; it is [l_copy]
    here, and the member is [l s]. *)
Definition percentile (perc : R) : method t R :=
  (_assert_size ;;;
   let perc :=
     if Rlt_dec perc 0 then 0
     else if Rgt_dec perc 100 then 100
     else perc in
   s <- this ;;
   let l_copy := l s in
   let l_copy := std_sort l_copy in
   let pos := perc * INR (length (l s) - 1) / 100 in
   pos_left <- double_to_int (floor pos) ;;
   pos_right <- double_to_int (ceil pos) ;;
   if (pos_left =? pos_right)%Z then
     subscript l_copy pos_left
   else
     a <- subscript l_copy pos_left ;;
     b <- subscript l_copy pos_right ;;
     ret (a * (IZR pos_right - pos) + b * (pos - IZR pos_left)))%method.

(** The two operands of [-] are evaluated in an unspecified order; both
    only read the object and fail the same way, so the order is not
    observable. *)
Definition var : method t R :=
  (m2 <- second_moment ;;
   m <- mean ;;
   ret (m2 - pow2 m))%method.

Definition std : method t R :=
  (v <- var ;; sqrt_double v)%method.

Definition append (e : R) : method t unit :=
  (s <- this ;; assign (mk (l s ++ [e])))%method.

Definition at_ (idx : nat) : method t R :=
  (s <- this ;; checked_at (l s) idx)%method.

Definition size : method t nat :=
  (s <- this ;; ret (length (l s)))%method.

End StatVector.

(** ** The moments in binary64

    The same functions with every operation rounded as the machine rounds
    it: [double] is a binary64 number, [pow(x, 2)] is the correctly rounded
    square, and the size is converted as [size_t] is. *)
Module Binary64.

Import PrimFloat.

Definition of_size (n : nat) : PrimFloat.float :=
  PrimFloat.of_uint63 (Uint63.of_Z (Z.of_nat n)).

Definition _assert_size (l : list PrimFloat.float) : outcome unit :=
  if Nat.eqb (length l) 0
  then Throws (mkException runtime_error "StatVector size is 0.")
  else Returns tt.

Definition mean (l : list PrimFloat.float) : outcome PrimFloat.float :=
  match _assert_size l with
  | Returns _ =>
      let sum :=
        fold_left (fun sum e => PrimFloat.add sum e) l PrimFloat.zero in
      Returns (PrimFloat.div sum (of_size (length l)))
  | Throws e => Throws e
  | Undefined => Undefined
  | ReturnsNonFinite v => ReturnsNonFinite v
  end.

Definition second_moment (l : list PrimFloat.float) : outcome PrimFloat.float :=
  match _assert_size l with
  | Returns _ =>
      let sum :=
        fold_left (fun sum e => PrimFloat.add sum (PrimFloat.mul e e))
                  l PrimFloat.zero in
      Returns (PrimFloat.div sum (of_size (length l)))
  | Throws e => Throws e
  | Undefined => Undefined
  | ReturnsNonFinite v => ReturnsNonFinite v
  end.

Definition var (l : list PrimFloat.float) : outcome PrimFloat.float :=
  match second_moment l, mean l with
  | Returns m2, Returns m =>
      Returns (PrimFloat.sub m2 (PrimFloat.mul m m))
  | Returns _, other => other
  | other, _ => other
  end.

Definition std (l : list PrimFloat.float) : outcome PrimFloat.float :=
  match var l with
  | Returns v => Returns (PrimFloat.sqrt v)
  | other => other
  end.



End Binary64.

(** ** Result *)

(** [std::map<std::string, StatVector>]: keys compared with [operator<] of
    [std::string], the lexicographic order on the bytes. *)
Module StringMap := FMapList.Make(String_as_OT).
Module StringMapFacts := FMapFacts.Facts(StringMap).

(** Modelled from the spec: the enumeration [ScoreAggregateMethod] is declared
    in [libvmaf.h]; the policy is one of MEAN, MINIMUM and HARMONIC_MEAN. *)
Inductive ScoreAggregateMethod : Type :=
| MEAN
| HARMONIC_MEAN
| MINIMUM.

Definition ScoreAggregateMethod_eqb (a b : ScoreAggregateMethod) : bool :=
  match a, b with
  | MEAN, MEAN | HARMONIC_MEAN, HARMONIC_MEAN | MINIMUM, MINIMUM => true
  | _, _ => false
  end.

Module Result.

(** [num_frms] is an [unsigned int] that the constructor does not
    initialise: [None] until [set_num_frms] stores a value. *)
Record t : Type := mk {
  d : StringMap.t StatVector.t;
  score_aggregate_method : ScoreAggregateMethod;
  num_frms : option Z
}.

(** [Result::Result()] *)
Definition new : t := mk (StringMap.empty StatVector.t) MEAN None.

(** [d[key]] of [std::map]: the element bound to [key], inserting a
    value-initialised one when there is none. *)
Definition d_subscript (key : string) : method t StatVector.t :=
  (r <- this ;;
   match StringMap.find key (d r) with
   | Some v => ret v
   | None =>
       assign (mk (StringMap.add key StatVector.new (d r))
                  (score_aggregate_method r) (num_frms r)) ;;;
       ret StatVector.new
   end)%method.

Definition set_scores (key : string) (scores : StatVector.t)
  : method t unit :=
  (r <- this ;;
   assign (mk (StringMap.add key scores (d r))
              (score_aggregate_method r) (num_frms r)))%method.

Definition get_scores (key : string) : method t StatVector.t :=
  d_subscript key.

Definition has_scores (key : string) : method t bool :=
  (r <- this ;; ret (StringMap.mem key (d r)))%method.

(** A member function called on the local copy [list]: the copy's final
    state is dropped when [list] goes out of scope. *)
Definition on_local {A : Type} (list : StatVector.t)
    (m : method StatVector.t A) : method t A :=
  fun r => (fst (m list), r).

Definition get_score (key : string) : method t R :=
  (list <- get_scores key ;;
   r <- this ;;
   if ScoreAggregateMethod_eqb (score_aggregate_method r) MINIMUM then
     on_local list StatVector.minimum
   else if ScoreAggregateMethod_eqb (score_aggregate_method r)
                                    HARMONIC_MEAN then
     on_local list StatVector.harmonic_mean
   else
     on_local list StatVector.mean)%method.

Definition get_keys : method t (list string) :=
  (r <- this ;;
   let v :=
     fold_left (fun v it => v ++ [fst it]) (StringMap.elements (d r)) [] in
   ret v)%method.

Definition get_num_frms : method t Z :=
  (r <- this ;;
   match num_frms r with
   | Some n => ret n
   | None => undefined
   end)%method.

Definition set_num_frms (n : Z) : method t unit :=
  (r <- this ;;
   assign (mk (d r) (score_aggregate_method r)
              (Some (n mod 2 ^ 32)%Z)))%method.

Definition setScoreAggregateMethod (scoreAggregateMethod : ScoreAggregateMethod)
  : method t unit :=
  (r <- this ;;
   assign (mk (d r) scoreAggregateMethod (num_frms r)))%method.

End Result.

(** ** VmafQualityRunnerFactory *)

(** Modelled from the spec: the model descriptor [VmafModel] is declared in
    [libvmaf.h]; the factory reads its path and its confidence-interval
    flag. *)
Record VmafModel : Type := mkVmafModel {
  path : string;
  enable_conf_interval : bool
}.

(** Modelled from the spec: the two runner classes are declared in [vmaf.h];
    both implement [IVmafQualityRunner] and are constructed from a model
    path, which they keep. *)
Inductive IVmafQualityRunner : Type :=
| BootstrapVmafQualityRunner (model_path : string)
| VmafQualityRunner (model_path : string).

(** The free store: the objects created by [new], by address. *)
Definition heap : Type := list IVmafQualityRunner.

(** [std::unique_ptr<IVmafQualityRunner>]: empty, or the address it owns. *)
Definition unique_ptr : Type := option nat.

Definition new_runner (obj : IVmafQualityRunner) : method heap unique_ptr :=
  (h <- this ;;
   assign (h ++ [obj]) ;;;
   ret (Some (length h)))%method.

Definition createVmafQualityRunner (vmaf_model_ptr : VmafModel)
  : method heap unique_ptr :=
  (let runner_ptr : unique_ptr := None in
   runner_ptr <-
     (if enable_conf_interval vmaf_model_ptr then
        new_runner (BootstrapVmafQualityRunner (path vmaf_model_ptr))
      else
        new_runner (VmafQualityRunner (path vmaf_model_ptr))) ;;
   ret runner_ptr)%method.

(** ** compute_vmaf *)

(** Modelled from the spec: [enum vmaf_cpu] is declared in [cpu.h]; it has the
    value [VMAF_CPU_NONE] and the tiers that autodetection can report. *)
Inductive vmaf_cpu : Type :=
| VMAF_CPU_NONE
| VMAF_CPU_tier (n : nat).

(** What the caller and the engine can observe of the process: the global
    [cpu], the [double] that [vmaf_score] points to ([None] while it has never
    been written), and the lines printed on the standard output. *)
Record process : Type := mkProcess {
  cpu : vmaf_cpu;
  vmaf_score : option R;
  stdout : list string
}.

Definition set_cpu (c : vmaf_cpu) : method process unit :=
  (p <- this ;; assign (mkProcess c (vmaf_score p) (stdout p)))%method.

Definition store_vmaf_score (score : R) : method process unit :=
  (p <- this ;; assign (mkProcess (cpu p) (Some score) (stdout p)))%method.

Definition printf (line : string) : method process unit :=
  (p <- this ;;
   assign (mkProcess (cpu p) (vmaf_score p) (stdout p ++ [line])))%method.

Definition newline : string := String (ascii_of_nat 10) EmptyString.

Definition exception_class_eqb (a b : exception_class) : bool :=
  match a, b with
  | VmafException, VmafException
  | runtime_error, runtime_error
  | logic_error, logic_error
  | other_exception, other_exception => true
  | _, _ => false
  end.

(** [try { body } catch (C1& e) { h1 } catch (C2& e) { h2 } ...]: the first
    handler whose class matches runs; with no match the exception leaves the
    block. *)
Fixpoint select_handler {S A : Type}
    (handlers : list (exception_class * (exception -> method S A)))
    (e : exception) : method S A :=
  match handlers with
  | [] => throw e
  | (c, h) :: rest =>
      if exception_class_eqb (exn_class e) c then h e
      else select_handler rest e
  end.

Definition try_catch {S A : Type} (body : method S A)
    (handlers : list (exception_class * (exception -> method S A)))
  : method S A :=
  fun s =>
    match body s with
    | (Throws e, s') => select_handler handlers e s'
    | r => r
    end.

Section ComputeVmaf.

(** The callbacks, the user data and the engine's own settings. *)
Variable Inputs : Type.

(** The engine [RunVmaf] of [vmaf.cpp]: it reads the global [cpu], may
    print, and returns a score or throws.  It is not given [vmaf_score]. *)
Variable RunVmaf : Inputs -> vmaf_cpu -> list string * outcome R.

(** The value [cpu_autodetect()] reports on this machine. *)
Variable cpu_autodetect : vmaf_cpu.

Definition call_RunVmaf (inputs : Inputs) : method process R :=
  fun p =>
    let '(lines, r) := RunVmaf inputs (cpu p) in
    (r, mkProcess (cpu p) (vmaf_score p) (stdout p ++ lines)).

Definition compute_vmaf (inputs : Inputs) (disable_avx : bool)
  : method process Z :=
  (set_cpu cpu_autodetect ;;;
   (if disable_avx then set_cpu VMAF_CPU_NONE else ret tt) ;;;
   try_catch
     (score <- call_RunVmaf inputs ;;
      store_vmaf_score score ;;;
      ret 0%Z)
     [ (VmafException, fun e =>
          printf ("Caught VmafException: " ++ what e ++ newline) ;;;
          ret (-2)%Z);
       (runtime_error, fun e =>
          printf ("Caught runtime_error: " ++ what e ++ newline) ;;;
          ret (-3)%Z);
       (logic_error, fun e =>
          printf ("Caught logic_error: " ++ what e ++ newline) ;;;
          ret (-4)%Z) ])%method.

End ComputeVmaf.

(** ** The vocabulary of the specification *)

(** Sum and average of a sequence of reals. *)
Definition total (v : list R) : R := fold_right Rplus 0 v.

Definition average (v : list R) : R := total v / INR (length v).


(** "average of squared samples". *)
Definition mean_of_squares (v : list R) : R :=
  average (map (fun x => x * x) v).

Definition is_minimum_of (m : R) (v : list R) : Prop :=
  In m v /\ forall x, In x v -> m <= x.

Definition is_maximum_of (m : R) (v : list R) : Prop :=
  In m v /\ forall x, In x v -> x <= m.

(** "a copy of the samples sorted ascending". *)
Definition ascending_copy_of (v sorted : list R) : Prop :=
  Permutation v sorted /\ StronglySorted Rle sorted.

(** "clamping p to [0,100]". *)
Definition clamp_0_100 (p : R) : R := Rmax 0 (Rmin p 100).

(** The percentile algorithm in the words of the specification, on an
    ascending sequence [sorted] of [n] samples: "pos = p * (n-1) / 100;
    lo = floor(pos), hi = ceil(pos); if lo == hi return sorted[lo]; otherwise
    sorted[lo]*(hi-pos) + sorted[hi]*(pos-lo)". *)
Definition percentile_position (n : nat) (p : R) : R :=
  clamp_0_100 p * (INR n - 1) / 100.

Definition interpolated_percentile (sorted : list R) (p : R) : R :=
  let pos := percentile_position (length sorted) p in
  let lo := Zfloor pos in
  let hi := Zceil pos in
  if Z.eq_dec lo hi then nth (Z.to_nat lo) sorted 0
  else nth (Z.to_nat lo) sorted 0 * (IZR hi - pos)
       + nth (Z.to_nat hi) sorted 0 * (pos - IZR lo).

(** The lexicographic order of [std::string]: the first differing byte
    decides, a proper prefix comes first. *)
Definition string_lt (a b : string) : Prop := String.compare a b = Lt.

(** The exception of [_assert_size]. *)
Definition empty_series_error : exception :=
  mkException runtime_error "StatVector size is 0.".

Definition is_bootstrap (r : IVmafQualityRunner) : bool :=
  match r with
  | BootstrapVmafQualityRunner _ => true
  | VmafQualityRunner _ => false
  end.

Definition runner_path (r : IVmafQualityRunner) : string :=
  match r with
  | BootstrapVmafQualityRunner p => p
  | VmafQualityRunner p => p
  end.

(** The value left in [cpu] by the first two statements of [compute_vmaf]. *)
Definition selected_cpu (cpu_autodetect : vmaf_cpu) (disable_avx : bool)
  : vmaf_cpu :=
  if disable_avx then VMAF_CPU_NONE else cpu_autodetect.



(** "1 / (average of 1/(x+1)) - 1" with the divisions of the machine: a
    zero divisor gives an infinity, and the reciprocal of an infinity is 0. *)
Definition ext_total (v : list extended) : extended :=
  fold_right ext_add (Finite 0) v.

Definition ext_average (v : list extended) : extended :=
  ext_div (ext_total v) (Finite (INR (length v))).

Definition ext_shifted_harmonic_mean (v : list R) : extended :=
  ext_sub
    (ext_div (Finite 1)
       (ext_average
          (map (fun x => ext_div (Finite 1) (ext_add (Finite x) (Finite 1)))
               v)))
    (Finite 1).

(** [std_dev() = sqrt(variance())] with the square root of the machine. *)
Definition sqrt_outcome (v : R) : outcome R :=
  if Rlt_dec v 0 then ReturnsNonFinite not_a_number else Returns (sqrt v).

(** A series of 2^31 + 1 samples, all zero. *)
Definition oversized_series : StatVector.t :=
  StatVector.mk (repeat 0 (Z.to_nat (2 ^ 31 + 1))).


(** * Properties *)

(** ** Running a method *)

Ltac run :=
  unfold bind, this, ret, throw, undefined, assign; cbn [fst snd].

Lemma assert_size_nonempty (s : StatVector.t) :
  StatVector.l s <> [] -> StatVector._assert_size s = (Returns tt, s).
Proof.
  unfold StatVector._assert_size; run.
  destruct (StatVector.l s); [congruence | reflexivity].
Qed.

Lemma assert_size_empty (s : StatVector.t) :
  StatVector.l s = [] ->
  StatVector._assert_size s = (Throws empty_series_error, s).
Proof.
  unfold StatVector._assert_size; run. intros ->. reflexivity.
Qed.

Lemma subscript_in_range {S : Type} (v : list R) (i : Z) (s : S) :
  (0 <= i < Z.of_nat (length v))%Z ->
  subscript v i s = (Returns (nth (Z.to_nat i) v 0), s).
Proof.
  intros Hi. unfold subscript.
  destruct (Z.ltb_spec i 0); [lia |].
  destruct (nth_error v (Z.to_nat i)) eqn:E.
  - rewrite (nth_error_nth _ _ 0 E). reflexivity.
  - apply nth_error_None in E. lia.
Qed.

(** ** Sums computed by the accumulation loops *)

Lemma fold_left_accumulate (f : R -> R) (v : list R) (a : R) :
  fold_left (fun sum e => sum + f e) v a = a + total (map f v).
Proof.
  revert a; induction v as [|x v IH]; intros a; cbn.
  - lra.
  - rewrite IH. unfold total. lra.
Qed.


(** ** std_sort meets the contract of std::sort *)

Lemma sort_insert_perm (x : R) (v : list R) :
  Permutation (x :: v) (sort_insert x v).
Proof.
  induction v as [|y v IH]; cbn.
  - reflexivity.
  - destruct (Rlt_dec y x).
    + rewrite perm_swap. constructor. exact IH.
    + reflexivity.
Qed.

Lemma std_sort_perm (v : list R) : Permutation v (std_sort v).
Proof.
  induction v as [|x v IH]; cbn.
  - constructor.
  - rewrite <- sort_insert_perm. constructor. exact IH.
Qed.

Lemma sort_insert_sorted (x : R) (v : list R) :
  StronglySorted Rle v -> StronglySorted Rle (sort_insert x v).
Proof.
  induction 1 as [|y v Hs IH Hy]; cbn.
  - repeat constructor.
  - destruct (Rlt_dec y x) as [Hlt|Hge].
    + constructor; [exact IH |].
      rewrite <- sort_insert_perm. constructor; [lra | exact Hy].
    + constructor; [constructor; assumption |].
      constructor; [lra |].
      eapply Forall_impl; [| exact Hy]. cbn. intros; lra.
Qed.

Lemma std_sort_sorted (v : list R) : StronglySorted Rle (std_sort v).
Proof.
  induction v; cbn; [constructor | now apply sort_insert_sorted].
Qed.

Lemma std_sort_ascending_copy (v : list R) :
  ascending_copy_of v (std_sort v).
Proof. split; [apply std_sort_perm | apply std_sort_sorted]. Qed.

(** An ascending list is determined by its elements: whatever algorithm
    [std::sort] runs, it produces the list [std_sort] produces. *)
Lemma ascending_copy_unique (v a b : list R) :
  ascending_copy_of v a -> ascending_copy_of v b -> a = b.
Proof.
  intros [Pa Sa] [Pb Sb].
  assert (P : Permutation a b) by (rewrite <- Pa; exact Pb).
  clear Pa Pb v. revert b Sb P.
  induction Sa as [|x a Sa IH Hx]; intros b Sb P.
  - apply Permutation_nil in P. now subst.
  - destruct Sb as [|y b Sb Hy].
    + apply Permutation_sym, Permutation_nil in P. discriminate.
    + assert (x = y).
      { assert (In x (y :: b)) as [->|Hxb]
          by (rewrite <- P; now left); [reflexivity |].
        assert (In y (x :: a)) as [->|Hya]
          by (rewrite P; now left); [reflexivity |].
        rewrite Forall_forall in Hx, Hy.
        specialize (Hx _ Hya). specialize (Hy _ Hxb). lra. }
      subst y. f_equal. apply IH; [exact Sb |].
      eapply Permutation_cons_inv; exact P.
Qed.

(** ** percentile *)

Lemma truncate_IZR (z : Z) : truncate (IZR z) = z.
Proof.
  unfold truncate. destruct (Rle_dec 0 (IZR z)).
  - apply ZfloorZ.
  - unfold Zceil. rewrite ZfloorNZ. lia.
Qed.

Lemma double_to_int_in_range {S : Type} (z : Z) (s : S) :
  (INT_MIN <= z <= INT_MAX)%Z -> double_to_int (IZR z) s = (Returns z, s).
Proof.
  intros Hz. unfold double_to_int. rewrite truncate_IZR.
  destruct (Z.leb_spec INT_MIN z); [| lia].
  destruct (Z.leb_spec z INT_MAX); [reflexivity | lia].
Qed.

Lemma double_to_int_above_range {S : Type} (z : Z) (s : S) :
  (INT_MAX < z)%Z -> double_to_int (IZR z) s = (Undefined, s).
Proof.
  intros Hz. unfold double_to_int. rewrite truncate_IZR.
  destruct (Z.leb_spec z INT_MAX); [lia |].
  now rewrite andb_false_r.
Qed.

Lemma clamp_0_100_cases (p : R) :
  (if Rlt_dec p 0 then 0 else if Rgt_dec p 100 then 100 else p)
  = clamp_0_100 p.
Proof.
  unfold clamp_0_100, Rmax, Rmin.
  destruct (Rlt_dec p 0), (Rgt_dec p 100), (Rle_dec p 100);
    try lra; destruct (Rle_dec 0 p); try lra; destruct (Rle_dec 0 100); lra.
Qed.

Lemma clamp_0_100_range (p : R) : 0 <= clamp_0_100 p <= 100.
Proof.
  rewrite <- clamp_0_100_cases.
  destruct (Rlt_dec p 0), (Rgt_dec p 100); lra.
Qed.

Lemma clamp_0_100_inside (p : R) : 0 <= p <= 100 -> clamp_0_100 p = p.
Proof.
  intros H. rewrite <- clamp_0_100_cases.
  destruct (Rlt_dec p 0), (Rgt_dec p 100); lra.
Qed.

Lemma percentile_position_range (n : nat) (p : R) :
  (1 <= n)%nat -> 0 <= percentile_position n p <= INR n - 1.
Proof.
  intros Hn. unfold percentile_position.
  pose proof (clamp_0_100_range p) as Hc.
  assert (0 <= INR n - 1).
  { apply le_INR in Hn. cbn in Hn. lra. }
  split.
  - apply Rmult_le_pos; [apply Rmult_le_pos|]; lra.
  - apply Rmult_le_reg_r with 100; [lra |].
    replace (clamp_0_100 p * (INR n - 1) / 100 * 100)
      with (clamp_0_100 p * (INR n - 1)) by (field; lra).
    rewrite (Rmult_comm (INR n - 1) 100).
    apply Rmult_le_compat_r; lra.
Qed.

(** The two indices are valid positions of the series (and so fit in an
    [int] as long as the size of the series does). *)
Lemma percentile_positions_in_range (n : nat) (p : R) :
  (1 <= n)%nat ->
  (0 <= Zfloor (percentile_position n p)
   /\ Zfloor (percentile_position n p) <= Zceil (percentile_position n p)
   /\ Zceil (percentile_position n p) < Z.of_nat n)%Z.
Proof.
  intros Hn.
  pose proof (percentile_position_range n p Hn) as [H0 H1].
  pose proof (Zfloor_ceil_bound (percentile_position n p)) as [Hf Hc].
  repeat split.
  - apply Zfloor_lub. exact H0.
  - apply le_IZR. lra.
  - assert (Zceil (percentile_position n p) <= Zceil (IZR (Z.of_nat n - 1)))%Z.
    { apply Zceil_le. rewrite minus_IZR, <- INR_IZR_INZ. exact H1. }
    unfold Zceil in H at 2. rewrite ZfloorNZ in H. lia.
Qed.

(** On a series of at most 2^31 samples the two indices are in the range of
    [int]. *)
Lemma percentile_positions_fit_int (n : nat) (p : R) :
  (1 <= n)%nat -> (Z.of_nat n <= 2 ^ 31)%Z ->
  (INT_MIN <= Zfloor (percentile_position n p) <= INT_MAX
   /\ INT_MIN <= Zceil (percentile_position n p) <= INT_MAX)%Z.
Proof.
  intros Hn Hsize. unfold INT_MIN, INT_MAX.
  pose proof (percentile_positions_in_range n p Hn). lia.
Qed.

Lemma source_position (n : nat) (p : R) :
  (1 <= n)%nat ->
  clamp_0_100 p * INR (n - 1) / 100 = percentile_position n p.
Proof.
  intros Hn. unfold percentile_position.
  rewrite minus_INR by exact Hn. reflexivity.
Qed.

Lemma clamp_0_100_idempotent (p : R) :
  clamp_0_100 (clamp_0_100 p) = clamp_0_100 p.
Proof. apply clamp_0_100_inside, clamp_0_100_range. Qed.

(** What [percentile] does once the series is known not to be empty, in
    terms of the position and of the two conversions. *)
Lemma percentile_nonempty (s : StatVector.t) (p : R) :
  StatVector.l s <> [] ->
  StatVector.percentile p s
  = (let pos := percentile_position (length (StatVector.l s)) p in
     let l_copy := std_sort (StatVector.l s) in
     pos_left <- double_to_int (floor pos) ;;
     pos_right <- double_to_int (ceil pos) ;;
     if (pos_left =? pos_right)%Z then
       subscript l_copy pos_left
     else
       a <- subscript l_copy pos_left ;;
       b <- subscript l_copy pos_right ;;
       ret (a * (IZR pos_right - pos) + b * (pos - IZR pos_left)))%method s.
Proof.
  intros Hne.
  assert (Hn : (1 <= length (StatVector.l s))%nat).
  { destruct (StatVector.l s); [congruence | cbn; lia]. }
  unfold StatVector.percentile.
  unfold bind at 1. rewrite (assert_size_nonempty s Hne).
  unfold bind at 1. unfold this at 1. cbv zeta.
  rewrite clamp_0_100_cases, (source_position _ p Hn).
  reflexivity.
Qed.

Lemma percentile_runs_to (s : StatVector.t) (p : R) (sorted : list R) :
  StatVector.l s <> [] ->
  ascending_copy_of (StatVector.l s) sorted ->
  (Zceil (percentile_position (length (StatVector.l s)) p) <= INT_MAX)%Z ->
  StatVector.percentile p s = (Returns (interpolated_percentile sorted p), s).
Proof.
  intros Hne Hsorted Hfit.
  assert (Hlen : length sorted = length (StatVector.l s)).
  { symmetry. apply Permutation_length, Hsorted. }
  assert (Hn : (1 <= length (StatVector.l s))%nat).
  { destruct (StatVector.l s); [congruence | cbn; lia]. }
  pose proof (percentile_positions_in_range _ p Hn) as Hidx.
  rewrite (percentile_nonempty s p Hne). cbv zeta.
  unfold interpolated_percentile. rewrite Hlen.
  set (pos := percentile_position (length (StatVector.l s)) p) in *.
  unfold floor, ceil.
  unfold bind at 1.
  rewrite double_to_int_in_range by (unfold INT_MIN, INT_MAX in *; lia).
  unfold bind at 1.
  rewrite double_to_int_in_range by (unfold INT_MIN, INT_MAX in *; lia).
  rewrite (ascending_copy_unique _ _ _ (std_sort_ascending_copy _) Hsorted).
  destruct (Z.eqb_spec (Zfloor pos) (Zceil pos)) as [E|E];
    destruct (Z.eq_dec (Zfloor pos) (Zceil pos)) as [E'|E'];
    try contradiction.
  - apply subscript_in_range. rewrite Hlen. lia.
  - run. rewrite !subscript_in_range by (rewrite Hlen; lia). reflexivity.
Qed.

Lemma percentile_runs (s : StatVector.t) (p : R) (sorted : list R) :
  StatVector.l s <> [] ->
  (Z.of_nat (length (StatVector.l s)) <= 2 ^ 31)%Z ->
  ascending_copy_of (StatVector.l s) sorted ->
  StatVector.percentile p s = (Returns (interpolated_percentile sorted p), s).
Proof.
  intros Hne Hsize Hsorted.
  assert (Hn : (1 <= length (StatVector.l s))%nat).
  { destruct (StatVector.l s); [congruence | cbn; lia]. }
  apply percentile_runs_to; try assumption.
  apply (percentile_positions_fit_int _ p Hn Hsize).
Qed.

Lemma percentile_position_100 (n : nat) :
  (1 <= n)%nat -> percentile_position n 100 = IZR (Z.of_nat (n - 1)).
Proof.
  intros Hn. unfold percentile_position.
  rewrite clamp_0_100_inside by lra.
  rewrite <- INR_IZR_INZ, minus_INR by exact Hn. cbn. field.
Qed.

(** Past 2^31 samples the conversion of the last position is undefined. *)
Lemma percentile_100_undefined (s : StatVector.t) :
  (2 ^ 31 < Z.of_nat (length (StatVector.l s)))%Z ->
  StatVector.percentile 100 s = (Undefined, s).
Proof.
  intros Hsize.
  assert (Hne : StatVector.l s <> []).
  { intros E. rewrite E in Hsize. cbn in Hsize. lia. }
  assert (Hn : (1 <= length (StatVector.l s))%nat).
  { destruct (StatVector.l s); [congruence | cbn; lia]. }
  rewrite (percentile_nonempty s 100 Hne). cbv zeta.
  rewrite (percentile_position_100 _ Hn).
  unfold floor. rewrite ZfloorZ.
  unfold bind at 1.
  rewrite double_to_int_above_range; [reflexivity |].
  unfold INT_MAX. lia.
Qed.

Lemma oversized_series_length :
  Z.of_nat (length (StatVector.l oversized_series)) = (2 ^ 31 + 1)%Z.
Proof.
  unfold oversized_series. cbn [StatVector.l].
  rewrite repeat_length. apply Z2Nat.id. lia.
Qed.

Lemma oversized_series_nonempty : StatVector.l oversized_series <> [].
Proof.
  intros E. pose proof oversized_series_length as H.
  rewrite E in H. cbn [length Z.of_nat] in H. lia.
Qed.

Lemma percentile_100_oversized :
  StatVector.percentile 100 oversized_series = (Undefined, oversized_series).
Proof.
  apply percentile_100_undefined. rewrite oversized_series_length. lia.
Qed.


Lemma ascending_copy_3_1_2 : ascending_copy_of [3; 1; 2] [1; 2; 3].
Proof.
  split.
  - change (Permutation (3 :: [1; 2]) ([1; 2] ++ 3 :: [])).
    apply Permutation_cons_app. cbn. reflexivity.
  - repeat constructor; lra.
Defined.




(** ** minimum, and the two ends of an ascending copy *)

Lemma minimum_loop (v : list R) (m0 : R) :
  let m := fold_left (fun min_ e => if Rlt_dec e min_ then e else min_) v m0 in
  (m = m0 \/ In m v) /\ m <= m0 /\ forall x, In x v -> m <= x.
Proof.
  revert m0; induction v as [|y v IH]; intros m0; cbn.
  - repeat split; [now left | lra | contradiction].
  - destruct (Rlt_dec y m0) as [Hlt|Hge].
    + destruct (IH y) as (Hin & Hle & Hall).
      repeat split.
      * right. destruct Hin as [->|Hin]; [now left | now right].
      * lra.
      * intros x [<-|Hx]; [exact Hle | now apply Hall].
    + destruct (IH m0) as (Hin & Hle & Hall).
      repeat split.
      * destruct Hin as [->|Hin]; [now left | right; now right].
      * exact Hle.
      * intros x [<-|Hx]; [lra | now apply Hall].
Qed.

Lemma minimum_runs (s : StatVector.t) :
  StatVector.l s <> [] ->
  exists m, StatVector.minimum s = (Returns m, s)
            /\ is_minimum_of m (StatVector.l s).
Proof.
  intros Hne. unfold StatVector.minimum.
  unfold bind at 1. rewrite (assert_size_nonempty s Hne). run.
  destruct (StatVector.l s) as [|x v] eqn:E; [congruence |].
  cbn [subscript Z.ltb Z.compare Z.to_nat nth_error]. run.
  eexists; split; [reflexivity |].
  pose proof (minimum_loop (x :: v) x) as (Hin & _ & Hall).
  split; [| exact Hall].
  destruct Hin as [->|Hin]; [now left | exact Hin].
Qed.

Lemma is_minimum_of_unique (v : list R) (a b : R) :
  is_minimum_of a v -> is_minimum_of b v -> a = b.
Proof.
  intros [Ha Hla] [Hb Hlb].
  specialize (Hla _ Hb). specialize (Hlb _ Ha). lra.
Qed.

Lemma ascending_nth_le (v : list R) :
  StronglySorted Rle v ->
  forall i j, (i <= j < length v)%nat -> nth i v 0 <= nth j v 0.
Proof.
  induction 1 as [|x v Hs IH Hx]; intros i j Hij; cbn in Hij; [lia |].
  destruct i as [|i], j as [|j]; cbn [nth]; try lia.
  - lra.
  - rewrite Forall_forall in Hx. apply Hx, nth_In. lia.
  - apply IH. lia.
Qed.

Lemma ascending_first_is_minimum (v sorted : list R) :
  v <> [] -> ascending_copy_of v sorted ->
  is_minimum_of (nth 0 sorted 0) v.
Proof.
  intros Hne [P S].
  assert (Hlen : (0 < length sorted)%nat).
  { rewrite <- (Permutation_length P). destruct v; [congruence | cbn; lia]. }
  split.
  - rewrite P. apply nth_In, Hlen.
  - intros x Hx. rewrite P in Hx.
    destruct (In_nth _ _ 0 Hx) as (i & Hi & <-).
    apply ascending_nth_le; [exact S | lia].
Qed.

Lemma ascending_last_is_maximum (v sorted : list R) :
  v <> [] -> ascending_copy_of v sorted ->
  is_maximum_of (nth (length v - 1) sorted 0) v.
Proof.
  intros Hne [P S].
  assert (Hlen : (0 < length sorted)%nat).
  { rewrite <- (Permutation_length P). destruct v; [congruence | cbn; lia]. }
  rewrite (Permutation_length P).
  split.
  - rewrite P. apply nth_In. lia.
  - intros x Hx. rewrite P in Hx.
    destruct (In_nth _ _ 0 Hx) as (i & Hi & <-).
    apply ascending_nth_le; [exact S | lia].
Qed.

Lemma interpolated_percentile_at_integer (sorted : list R) (p : R) (k : Z) :
  percentile_position (length sorted) p = IZR k ->
  interpolated_percentile sorted p = nth (Z.to_nat k) sorted 0.
Proof.
  intros Hpos. unfold interpolated_percentile. rewrite Hpos.
  assert (Hc : Zceil (IZR k) = k).
  { unfold Zceil. rewrite ZfloorNZ. lia. }
  rewrite ZfloorZ, Hc.
  destruct (Z.eq_dec k k); [reflexivity | contradiction].
Qed.

Lemma percentile_position_0 (n : nat) : percentile_position n 0 = IZR 0.
Proof.
  unfold percentile_position. rewrite clamp_0_100_inside by lra.
  unfold Rdiv. now rewrite !Rmult_0_l.
Qed.

Lemma percentile_position_single (p : R) : percentile_position 1 p = IZR 0.
Proof.
  unfold percentile_position. cbn. unfold Rdiv.
  replace (1 - 1) with 0 by lra. now rewrite Rmult_0_r, Rmult_0_l.
Qed.

(** C3 (as amended). On a non-empty series [percentile 0] returns the
    minimum of the samples (the value [minimum] returns); on a non-empty
    series of at most 2^31 samples [percentile 100] returns the maximum; on
    a series of one sample [percentile p] returns that sample, for every
    [p] (clamping makes the range of [p] immaterial). *)
Theorem percentile_extremes (s : StatVector.t) :
  StatVector.l s <> [] ->
  (exists m, StatVector.percentile 0 s = (Returns m, s)
             /\ is_minimum_of m (StatVector.l s)
             /\ StatVector.minimum s = (Returns m, s))
  /\ ((Z.of_nat (length (StatVector.l s)) <= 2 ^ 31)%Z ->
      exists M, StatVector.percentile 100 s = (Returns M, s)
                /\ is_maximum_of M (StatVector.l s))
  /\ (forall x p, StatVector.l s = [x] ->
        StatVector.percentile p s = (Returns x, s)).
Proof.
  intros Hne.
  pose proof (std_sort_ascending_copy (StatVector.l s)) as Hsorted.
  assert (Hlen : length (std_sort (StatVector.l s))
                 = length (StatVector.l s)).
  { symmetry. apply Permutation_length, Hsorted. }
  assert (Hn : (1 <= length (StatVector.l s))%nat).
  { destruct (StatVector.l s); [congruence | cbn; lia]. }
  assert (Hzero : (Zceil (IZR 0) <= INT_MAX)%Z).
  { unfold Zceil. rewrite ZfloorNZ. unfold INT_MAX. lia. }
  split; [| split].
  - exists (nth 0 (std_sort (StatVector.l s)) 0).
    pose proof (ascending_first_is_minimum _ _ Hne Hsorted) as Hmin.
    split; [| split; [exact Hmin |]].
    + rewrite (percentile_runs_to s 0 _ Hne Hsorted)
        by (rewrite percentile_position_0; exact Hzero).
      now rewrite (interpolated_percentile_at_integer _ _ 0%Z)
        by apply percentile_position_0.
    + destruct (minimum_runs s Hne) as (m & Hrun & Hm).
      rewrite Hrun. do 2 f_equal.
      eapply is_minimum_of_unique; eassumption.
  - intros Hsize.
    exists (nth (length (StatVector.l s) - 1) (std_sort (StatVector.l s)) 0).
    split; [| now apply ascending_last_is_maximum].
    rewrite (percentile_runs s 100 _ Hne Hsize Hsorted).
    rewrite (interpolated_percentile_at_integer _ _
               (Z.of_nat (length (StatVector.l s) - 1))).
    + now rewrite Nat2Z.id.
    + rewrite Hlen. now apply percentile_position_100.
  - intros x p Hx.
    rewrite (percentile_runs_to s p _ Hne Hsorted)
      by (rewrite Hx; cbn [length]; rewrite percentile_position_single;
          exact Hzero).
    rewrite (interpolated_percentile_at_integer _ _ 0%Z).
    + rewrite Hx. reflexivity.
    + rewrite Hlen, Hx. apply percentile_position_single.
Qed.

(** The series 3, 1, 2: the 0th percentile is 1 and the 100th is 3. *)
Lemma percentile_extremes_witness :
  StatVector.percentile 0 (StatVector.mk [3; 1; 2])
  = (Returns 1, StatVector.mk [3; 1; 2])
  /\ StatVector.percentile 100 (StatVector.mk [3; 1; 2])
     = (Returns 3, StatVector.mk [3; 1; 2]).
Proof.
  assert (Hne : StatVector.l (StatVector.mk [3; 1; 2]) <> [])
    by (cbn; discriminate).
  destruct (percentile_extremes (StatVector.mk [3; 1; 2]) Hne)
    as ((m & Hm & (Hin & Hle) & _) & Hmax & _).
  destruct Hmax as (M & HM & (HIn & Hge)); [cbn; lia |].
  cbn [StatVector.l] in *.
  assert (m = 1).
  { pose proof (Hle 1 (or_intror (or_introl eq_refl))).
    cbn in Hin. destruct Hin as [<-|[<-|[<-|[]]]]; lra. }
  assert (M = 3).
  { pose proof (Hge 3 (or_introl eq_refl)).
    cbn in HIn. destruct HIn as [<-|[<-|[<-|[]]]]; lra. }
  subst. split; assumption.
Defined.

(** C3 (as stated) fails: on the non-empty series of 2^31 + 1 zeros
    [percentile 100] does not return the maximum: the position 2^31 is
    outside the range of [int] and the result is undefined. *)
Lemma percentile_100_not_maximum_on_oversized_series :
  StatVector.l oversized_series <> []
  /\ ~ (exists M, StatVector.percentile 100 oversized_series
                  = (Returns M, oversized_series)
                  /\ is_maximum_of M (StatVector.l oversized_series)).
Proof.
  split; [exact oversized_series_nonempty |].
  intros (M & Hrun & _). rewrite percentile_100_oversized in Hrun.
  discriminate Hrun.
Qed.

(** ** Means *)




Lemma mean_runs (s : StatVector.t) :
  StatVector.l s <> [] ->
  StatVector.mean s = (Returns (average (StatVector.l s)), s).
Proof.
  intros Hne. unfold StatVector.mean.
  unfold bind at 1. rewrite (assert_size_nonempty s Hne). run.
  rewrite (fold_left_accumulate (fun e => e)), map_id, Rplus_0_l.
  reflexivity.
Qed.

Lemma second_moment_runs (s : StatVector.t) :
  StatVector.l s <> [] ->
  StatVector.second_moment s = (Returns (mean_of_squares (StatVector.l s)), s).
Proof.
  intros Hne. unfold StatVector.second_moment.
  unfold bind at 1. rewrite (assert_size_nonempty s Hne). run.
  rewrite (fold_left_accumulate pow2), Rplus_0_l.
  unfold mean_of_squares, average. rewrite !length_map.
  do 4 f_equal. apply map_ext. intros x. unfold pow2. ring.
Qed.

(** ** Sums with infinities *)

Lemma ext_add_assoc (a b c : extended) :
  ext_add a (ext_add b c) = ext_add (ext_add a b) c.
Proof.
  destruct a as [x|[]], b as [y|[]], c as [z|[]]; cbn;
    try reflexivity; f_equal; ring.
Qed.

Lemma ext_add_0_r (a : extended) : ext_add a (Finite 0) = a.
Proof. destruct a as [x|[]]; cbn; try reflexivity; f_equal; ring. Qed.

Lemma ext_add_0_l (a : extended) : ext_add (Finite 0) a = a.
Proof. destruct a as [x|[]]; cbn; try reflexivity; f_equal; ring. Qed.

Lemma fold_left_ext_accumulate (f : R -> extended) (v : list R)
    (a : extended) :
  fold_left (fun sum e => ext_add sum (f e)) v a
  = ext_add a (ext_total (map f v)).
Proof.
  revert a; induction v as [|x v IH]; intros a; cbn.
  - now rewrite ext_add_0_r.
  - rewrite IH, ext_add_assoc. reflexivity.
Qed.







Lemma harmonic_mean_runs (s : StatVector.t) :
  StatVector.l s <> [] ->
  StatVector.harmonic_mean s
  = (double_outcome (ext_shifted_harmonic_mean (StatVector.l s)), s).
Proof.
  intros Hne. unfold StatVector.harmonic_mean.
  unfold bind at 1. rewrite (assert_size_nonempty s Hne). run.
  unfold return_double.
  rewrite (fold_left_ext_accumulate
             (fun e => ext_div (Finite 1) (ext_add (Finite e) (Finite 1)))),
    ext_add_0_l.
  unfold ext_shifted_harmonic_mean, ext_average. now rewrite length_map.
Qed.






(** ** Variance *)

Lemma var_runs (s : StatVector.t) :
  StatVector.l s <> [] ->
  StatVector.var s
  = (Returns (mean_of_squares (StatVector.l s)
              - average (StatVector.l s) ^ 2), s).
Proof.
  intros Hne. unfold StatVector.var.
  unfold bind at 1. rewrite (second_moment_runs s Hne).
  unfold bind at 1. rewrite (mean_runs s Hne).
  reflexivity.
Qed.

Lemma std_runs (s : StatVector.t) (v : R) :
  StatVector.var s = (Returns v, s) ->
  StatVector.std s = (sqrt_outcome v, s).
Proof.
  intros Hv. unfold StatVector.std. unfold bind. rewrite Hv.
  unfold sqrt_double, sqrt_outcome.
  destruct (Rlt_dec v 0); reflexivity.
Qed.





(** ** The empty series *)

Lemma mean_empty (s : StatVector.t) :
  StatVector.l s = [] ->
  StatVector.mean s = (Throws empty_series_error, s).
Proof.
  intros He. unfold StatVector.mean, bind.
  now rewrite (assert_size_empty s He).
Qed.

Lemma minimum_empty (s : StatVector.t) :
  StatVector.l s = [] ->
  StatVector.minimum s = (Throws empty_series_error, s).
Proof.
  intros He. unfold StatVector.minimum, bind.
  now rewrite (assert_size_empty s He).
Qed.

Lemma harmonic_mean_empty (s : StatVector.t) :
  StatVector.l s = [] ->
  StatVector.harmonic_mean s = (Throws empty_series_error, s).
Proof.
  intros He. unfold StatVector.harmonic_mean, bind.
  now rewrite (assert_size_empty s He).
Qed.

Lemma second_moment_empty (s : StatVector.t) :
  StatVector.l s = [] ->
  StatVector.second_moment s = (Throws empty_series_error, s).
Proof.
  intros He. unfold StatVector.second_moment, bind.
  now rewrite (assert_size_empty s He).
Qed.

Lemma percentile_empty (s : StatVector.t) (p : R) :
  StatVector.l s = [] ->
  StatVector.percentile p s = (Throws empty_series_error, s).
Proof.
  intros He. unfold StatVector.percentile, bind.
  now rewrite (assert_size_empty s He).
Qed.

Lemma var_empty (s : StatVector.t) :
  StatVector.l s = [] ->
  StatVector.var s = (Throws empty_series_error, s).
Proof.
  intros He. unfold StatVector.var. unfold bind at 1.
  now rewrite (second_moment_empty s He).
Qed.

Lemma std_empty (s : StatVector.t) :
  StatVector.l s = [] ->
  StatVector.std s = (Throws empty_series_error, s).
Proof.
  intros He. unfold StatVector.std. unfold bind at 1.
  now rewrite (var_empty s He).
Qed.

(** ** compute_vmaf *)

Section ComputeVmafFacts.

Variable Inputs : Type.
Variable RunVmaf : Inputs -> vmaf_cpu -> list string * outcome R.
Variable cpu_autodetect : vmaf_cpu.
Variable inputs : Inputs.
Variable disable_avx : bool.
Variable p : process.


Lemma compute_vmaf_engine_throws (lines : list string) (e : exception) :
  RunVmaf inputs (selected_cpu cpu_autodetect disable_avx)
  = (lines, Throws e) ->
  compute_vmaf Inputs RunVmaf cpu_autodetect inputs disable_avx p
  = match exn_class e with
    | VmafException =>
        (Returns (-2)%Z,
         mkProcess (selected_cpu cpu_autodetect disable_avx) (vmaf_score p)
           ((stdout p ++ lines)
              ++ ["Caught VmafException: " ++ what e ++ newline]%string))
    | runtime_error =>
        (Returns (-3)%Z,
         mkProcess (selected_cpu cpu_autodetect disable_avx) (vmaf_score p)
           ((stdout p ++ lines)
              ++ ["Caught runtime_error: " ++ what e ++ newline]%string))
    | logic_error =>
        (Returns (-4)%Z,
         mkProcess (selected_cpu cpu_autodetect disable_avx) (vmaf_score p)
           ((stdout p ++ lines)
              ++ ["Caught logic_error: " ++ what e ++ newline]%string))
    | other_exception =>
        (Throws e,
         mkProcess (selected_cpu cpu_autodetect disable_avx) (vmaf_score p)
           (stdout p ++ lines))
    end.
Proof.
  intros He. unfold selected_cpu in *.
  cbv [compute_vmaf try_catch call_RunVmaf bind set_cpu store_vmaf_score
       this ret assign cpu vmaf_score stdout].
  destruct disable_avx; rewrite He; cbn [select_handler];
    destruct (exn_class e); reflexivity.
Qed.


End ComputeVmafFacts.




(** C6. On an empty series each of [mean], [minimum], [harmonic_mean],
    [second_moment], [var], [std] and [percentile] throws the
    [std::runtime_error] of [_assert_size] and returns no value, leaving the
    series as it was, while [size] returns 0; the error is not a
    [VmafException], and an engine that fails with it makes [compute_vmaf]
    return the status -3 of the generic runtime failures. *)
Theorem empty_series_statistics_throw (s : StatVector.t) :
  StatVector.l s = [] ->
  StatVector.mean s = (Throws empty_series_error, s)
  /\ StatVector.minimum s = (Throws empty_series_error, s)
  /\ StatVector.harmonic_mean s = (Throws empty_series_error, s)
  /\ StatVector.second_moment s = (Throws empty_series_error, s)
  /\ StatVector.var s = (Throws empty_series_error, s)
  /\ StatVector.std s = (Throws empty_series_error, s)
  /\ (forall p, StatVector.percentile p s = (Throws empty_series_error, s))
  /\ StatVector.size s = (Returns 0%nat, s)
  /\ exn_class empty_series_error = runtime_error
  /\ exn_class empty_series_error <> VmafException
  /\ (forall (Inputs : Type) RunVmaf cpu_autodetect (inputs : Inputs)
             disable_avx p lines,
        RunVmaf inputs (selected_cpu cpu_autodetect disable_avx)
        = (lines, fst (StatVector.mean s)) ->
        fst (compute_vmaf Inputs RunVmaf cpu_autodetect inputs disable_avx p)
        = Returns (-3)%Z).
Proof.
  intros He.
  split; [now apply mean_empty |].
  split; [now apply minimum_empty |].
  split; [now apply harmonic_mean_empty |].
  split; [now apply second_moment_empty |].
  split; [now apply var_empty |].
  split; [now apply std_empty |].
  split; [intros p; now apply percentile_empty |].
  split; [unfold StatVector.size; run; now rewrite He |].
  split; [reflexivity |].
  split; [discriminate |].
  intros Inputs RunVmaf cpu_autodetect inputs disable_avx p lines Hrun.
  rewrite (mean_empty s He) in Hrun. cbn [fst] in Hrun.
  now rewrite (compute_vmaf_engine_throws _ _ _ _ _ _ _ _ Hrun).
Qed.

Lemma empty_series_statistics_throw_witness :
  StatVector.mean StatVector.new
  = (Throws empty_series_error, StatVector.new)
  /\ StatVector.std StatVector.new
     = (Throws empty_series_error, StatVector.new)
  /\ StatVector.percentile 50 StatVector.new
     = (Throws empty_series_error, StatVector.new).
Proof.
  destruct (empty_series_statistics_throw StatVector.new eq_refl)
    as (Hmean & _ & _ & _ & _ & Hstd & Hperc & _).
  split; [exact Hmean | split; [exact Hstd | exact (Hperc 50)]].
Defined.

(** ** The runner factory *)

(** C8. The factory returns a pointer to a newly allocated runner, which is
    the bootstrap variant exactly when [enable_conf_interval] is set and the
    standard variant otherwise, whatever the path (the empty string
    included); the runner holds the descriptor's path; its address was not
    allocated before the call, and the allocation leaves every older object
    in place, so only the returned pointer refers to it. *)
Theorem createVmafQualityRunner_selects (model : VmafModel) (h : heap) :
  exists (a : nat) (runner : IVmafQualityRunner) (h' : heap),
    createVmafQualityRunner model h = (Returns (Some a), h')
    /\ nth_error h' a = Some runner
    /\ (is_bootstrap runner = true <-> enable_conf_interval model = true)
    /\ (is_bootstrap runner = false <-> enable_conf_interval model = false)
    /\ runner = (if enable_conf_interval model
                 then BootstrapVmafQualityRunner (path model)
                 else VmafQualityRunner (path model))
    /\ runner_path runner = path model
    /\ nth_error h a = None
    /\ (forall b, b <> a -> nth_error h' b = nth_error h b).
Proof.
  exists (length h).
  exists (if enable_conf_interval model
          then BootstrapVmafQualityRunner (path model)
          else VmafQualityRunner (path model)).
  exists (h ++ [if enable_conf_interval model
                then BootstrapVmafQualityRunner (path model)
                else VmafQualityRunner (path model)]).
  split.
  { unfold createVmafQualityRunner, new_runner. run.
    destruct (enable_conf_interval model); reflexivity. }
  split.
  { rewrite nth_error_app2 by lia. now rewrite Nat.sub_diag. }
  split; [destruct (enable_conf_interval model); cbn; tauto |].
  split; [destruct (enable_conf_interval model); cbn; tauto |].
  split; [reflexivity |].
  split; [destruct (enable_conf_interval model); reflexivity |].
  split; [apply nth_error_None; lia |].
  intros b Hb.
  destruct (Nat.lt_ge_cases b (length h)) as [Hlt|Hge].
  - now apply nth_error_app1.
  - assert (nth_error h b = None) as -> by (apply nth_error_None; lia).
    apply nth_error_None. rewrite length_app. cbn. lia.
Qed.

(** The empty path with the flag set gives a bootstrap runner at the first
    free address; with the flag clear, a standard runner. *)
Lemma createVmafQualityRunner_selects_witness :
  createVmafQualityRunner (mkVmafModel "" true) []
  = (Returns (Some 0%nat), [BootstrapVmafQualityRunner ""])
  /\ createVmafQualityRunner (mkVmafModel "" false)
       [BootstrapVmafQualityRunner "vmaf_v0.6.1.pkl"]
     = (Returns (Some 1%nat),
        [BootstrapVmafQualityRunner "vmaf_v0.6.1.pkl"; VmafQualityRunner ""]).
Proof.
  split.
  - destruct (createVmafQualityRunner_selects (mkVmafModel "" true) [])
      as (a & runner & h' & Hrun & _).
    rewrite Hrun. cbn in Hrun. symmetry. exact Hrun.
  - destruct (createVmafQualityRunner_selects (mkVmafModel "" false)
                [BootstrapVmafQualityRunner "vmaf_v0.6.1.pkl"])
      as (a & runner & h' & Hrun & _).
    rewrite Hrun. cbn in Hrun. symmetry. exact Hrun.
Defined.

(** ** Result *)

Lemma push_back_loop {A B : Type} (f : A -> B) (items : list A) (v : list B) :
  fold_left (fun v it => v ++ [f it]) items v = v ++ map f items.
Proof.
  revert v; induction items as [|x items IH]; intros v; cbn.
  - now rewrite app_nil_r.
  - rewrite IH, <- app_assoc. reflexivity.
Qed.

Lemma get_keys_runs (r : Result.t) :
  Result.get_keys r
  = (Returns (map fst (StringMap.elements (Result.d r))), r).
Proof.
  unfold Result.get_keys. run. now rewrite push_back_loop.
Qed.

(** [string_lt] is the order the map is built on. *)
Lemma string_lt_iff (a b : string) : string_lt a b <-> String_as_OT.lt a b.
Proof. apply String_as_OT.cmp_lt. Qed.

Lemma string_lt_irrefl (a : string) : ~ string_lt a a.
Proof.
  rewrite string_lt_iff. intros H.
  exact (String_as_OT.lt_not_eq H eq_refl).
Qed.

Lemma string_lt_trans (a b c : string) :
  string_lt a b -> string_lt b c -> string_lt a c.
Proof. rewrite !string_lt_iff. apply String_as_OT.lt_trans. Qed.

Lemma elements_keys_sorted (m : StringMap.t StatVector.t) :
  StronglySorted string_lt (map fst (StringMap.elements m)).
Proof.
  apply Sorted_StronglySorted.
  - intros a b c. apply string_lt_trans.
  - pose proof (StringMap.elements_3 m) as Hs.
    induction Hs as [|x v Hs IH Hhd]; cbn; constructor.
    + exact IH.
    + destruct Hhd as [|y v Hxy]; cbn; constructor.
      apply string_lt_iff. exact Hxy.
Qed.

Lemma strictly_ascending_NoDup (keys : list string) :
  StronglySorted string_lt keys -> NoDup keys.
Proof.
  induction 1 as [|k keys Hs IH Hk]; constructor; [| exact IH].
  intros Hin. rewrite Forall_forall in Hk.
  exact (string_lt_irrefl k (Hk k Hin)).
Qed.

Lemma elements_keys_In (m : StringMap.t StatVector.t) (key : string) :
  In key (map fst (StringMap.elements m)) <-> StringMap.In key m.
Proof.
  rewrite StringMapFacts.elements_in_iff. split.
  - intros Hin. apply in_map_iff in Hin as ((k & e) & <- & Hin).
    exists e. apply InA_alt. exists (k, e). split; [| exact Hin].
    split; reflexivity.
  - intros (e & Hin). apply InA_alt in Hin as ((k & e') & (Hk & He) & Hin).
    cbn in Hk, He. subst. apply in_map_iff. now exists (k, e').
Qed.

Lemma has_scores_runs (r : Result.t) (key : string) :
  Result.has_scores key r = (Returns (StringMap.mem key (Result.d r)), r).
Proof. reflexivity. Qed.

(** C10. [get_keys] returns, without changing the result, the metric names
    in strictly ascending lexicographic order, hence without duplicates; a
    name is in the list exactly when the map has an entry for it, that is
    when [has_scores] answers true. *)
Theorem get_keys_ascending (r : Result.t) :
  exists keys : list string,
    Result.get_keys r = (Returns keys, r)
    /\ StronglySorted string_lt keys
    /\ NoDup keys
    /\ (forall key, In key keys
                    <-> exists series,
                          StringMap.find key (Result.d r) = Some series)
    /\ (forall key, In key keys
                    <-> Result.has_scores key r = (Returns true, r)).
Proof.
  exists (map fst (StringMap.elements (Result.d r))).
  split; [apply get_keys_runs |].
  split; [apply elements_keys_sorted |].
  split; [apply strictly_ascending_NoDup, elements_keys_sorted |].
  split; intros key; rewrite elements_keys_In.
  - rewrite StringMapFacts.in_find_iff.
    destruct (StringMap.find key (Result.d r)) as [series|].
    + split; [intros _; now exists series | discriminate].
    + split; [congruence | intros (series & H); discriminate H].
  - rewrite StringMapFacts.mem_in_iff, has_scores_runs.
    split; [now intros -> | intros H; now inversion H].
Qed.

Lemma get_scores_bound (r : Result.t) (key : string) (series : StatVector.t) :
  StringMap.find key (Result.d r) = Some series ->
  Result.get_scores key r = (Returns series, r).
Proof.
  intros Hf. unfold Result.get_scores, Result.d_subscript. run.
  now rewrite Hf.
Qed.

Lemma get_scores_unbound (r : Result.t) (key : string) :
  StringMap.find key (Result.d r) = None ->
  Result.get_scores key r
  = (Returns StatVector.new,
     Result.mk (StringMap.add key StatVector.new (Result.d r))
               (Result.score_aggregate_method r) (Result.num_frms r)).
Proof.
  intros Hf. unfold Result.get_scores, Result.d_subscript. run.
  now rewrite Hf.
Qed.

(** C9. [get_scores] on a key without entry does not fail: it returns an
    empty series and leaves the result with an entry binding the key to an
    empty series, the other entries, the policy and the frame count being
    as before; [has_scores], false before the call, is true after it, and
    [get_keys] then lists the key. *)
Theorem get_scores_inserts_unset_key (r : Result.t) (key : string) :
  StringMap.find key (Result.d r) = None ->
  exists r' : Result.t,
    Result.get_scores key r = (Returns StatVector.new, r')
    /\ StatVector.l StatVector.new = []
    /\ Result.has_scores key r = (Returns false, r)
    /\ StringMap.find key (Result.d r') = Some StatVector.new
    /\ Result.has_scores key r' = (Returns true, r')
    /\ (exists keys, Result.get_keys r' = (Returns keys, r') /\ In key keys)
    /\ (forall k, k <> key ->
          StringMap.find k (Result.d r') = StringMap.find k (Result.d r))
    /\ Result.score_aggregate_method r' = Result.score_aggregate_method r
    /\ Result.num_frms r' = Result.num_frms r.
Proof.
  intros Hf.
  exists (Result.mk (StringMap.add key StatVector.new (Result.d r))
                    (Result.score_aggregate_method r) (Result.num_frms r)).
  split; [now apply get_scores_unbound |].
  split; [reflexivity |].
  split.
  { rewrite has_scores_runs, StringMapFacts.mem_find_b, Hf. reflexivity. }
  split; [now apply StringMapFacts.add_eq_o |].
  split.
  { rewrite has_scores_runs, StringMapFacts.mem_find_b. cbn [Result.d].
    now rewrite StringMapFacts.add_eq_o. }
  split.
  { eexists. split; [apply get_keys_runs |].
    apply elements_keys_In. cbn [Result.d].
    apply StringMapFacts.add_in_iff. now left. }
  split; [| split; reflexivity].
  intros k Hk. cbn [Result.d]. apply StringMapFacts.add_neq_o. congruence.
Qed.

(** A newly constructed result has no entry for "vmaf"; asking for its
    scores creates one. *)
Lemma get_scores_inserts_unset_key_witness :
  exists r' : Result.t,
    Result.get_scores "vmaf" Result.new = (Returns StatVector.new, r')
    /\ Result.has_scores "vmaf" Result.new = (Returns false, Result.new)
    /\ Result.has_scores "vmaf" r' = (Returns true, r')
    /\ Result.get_keys r' = (Returns ["vmaf"%string], r').
Proof.
  destruct (get_scores_inserts_unset_key Result.new "vmaf" eq_refl)
    as (r' & Hget & _ & Hbefore & _ & Hafter & _).
  exists r'.
  split; [exact Hget |].
  split; [exact Hbefore |].
  split; [exact Hafter |].
  cbn in Hget. injection Hget as <-. reflexivity.
Defined.

(** C7. When [key] is bound to [series], [get_score key] returns what
    [series.minimum()] returns under the policy MINIMUM, what
    [series.harmonic_mean()] returns under HARMONIC_MEAN and what
    [series.mean()] returns under MEAN, the policy of a newly constructed
    result, and leaves the result unchanged; on a series without samples it
    throws the empty-series error; on the series 3, 1, 2 it returns 1 under
    MINIMUM and 2 under MEAN. *)
Theorem get_score_applies_policy
    (r : Result.t) (key : string) (series : StatVector.t) :
  StringMap.find key (Result.d r) = Some series ->
  Result.get_score key r
  = (fst (match Result.score_aggregate_method r with
          | MINIMUM => StatVector.minimum series
          | HARMONIC_MEAN => StatVector.harmonic_mean series
          | MEAN => StatVector.mean series
          end), r)
  /\ Result.score_aggregate_method Result.new = MEAN
  /\ (StatVector.l series = [] ->
      Result.get_score key r = (Throws empty_series_error, r))
  /\ (StatVector.l series = [3; 1; 2] ->
      Result.score_aggregate_method r = MINIMUM ->
      Result.get_score key r = (Returns 1, r))
  /\ (StatVector.l series = [3; 1; 2] ->
      Result.score_aggregate_method r = MEAN ->
      Result.get_score key r = (Returns 2, r)).
Proof.
  intros Hf.
  assert (Hrun : Result.get_score key r
                 = (fst (match Result.score_aggregate_method r with
                         | MINIMUM => StatVector.minimum series
                         | HARMONIC_MEAN => StatVector.harmonic_mean series
                         | MEAN => StatVector.mean series
                         end), r)).
  { unfold Result.get_score. unfold bind at 1.
    rewrite (get_scores_bound r key series Hf). run.
    unfold Result.on_local.
    destruct (Result.score_aggregate_method r); reflexivity. }
  split; [exact Hrun |].
  split; [reflexivity |].
  split; [| split].
  - intros He. rewrite Hrun.
    destruct (Result.score_aggregate_method r).
    + now rewrite (mean_empty series He).
    + now rewrite (harmonic_mean_empty series He).
    + now rewrite (minimum_empty series He).
  - intros Hl Hm. rewrite Hrun, Hm.
    assert (Hne : StatVector.l series <> []) by (rewrite Hl; discriminate).
    destruct (minimum_runs series Hne) as (m & -> & Hin & Hle).
    cbn [fst]. rewrite Hl in Hin, Hle.
    pose proof (Hle 1 (or_intror (or_introl eq_refl))).
    do 2 f_equal.
    cbn in Hin. destruct Hin as [<-|[<-|[<-|[]]]]; lra.
  - intros Hl Hm. rewrite Hrun, Hm.
    assert (Hne : StatVector.l series <> []) by (rewrite Hl; discriminate).
    rewrite (mean_runs series Hne). cbn [fst]. rewrite Hl.
    do 2 f_equal. unfold average, total. cbn. field.
Qed.

(** The series 3, 1, 2 stored under "vmaf" in a new result: the score is 2,
    and 1 once the policy is set to MINIMUM, without storing the series
    again. *)
Lemma get_score_applies_policy_witness :
  let series := StatVector.of_vector [3; 1; 2] in
  let r := snd (Result.set_scores "vmaf" series Result.new) in
  let r' := snd (Result.setScoreAggregateMethod MINIMUM r) in
  Result.get_score "vmaf" r = (Returns 2, r)
  /\ Result.get_score "vmaf" r' = (Returns 1, r').
Proof.
  intros series r r'.
  assert (Hf : StringMap.find "vmaf"%string (Result.d r) = Some series)
    by reflexivity.
  assert (Hf' : StringMap.find "vmaf"%string (Result.d r') = Some series)
    by reflexivity.
  split.
  - apply (get_score_applies_policy r "vmaf" series Hf); reflexivity.
  - apply (get_score_applies_policy r' "vmaf" series Hf'); reflexivity.
Defined.

(** Three metrics stored in another order come back in byte order: capitals
    before small letters. *)
Example get_keys_of_three_metrics :
  let r0 := Result.new in
  let r1 := snd (Result.set_scores "vmaf" (StatVector.of_vector [90]) r0) in
  let r2 := snd (Result.set_scores "adm2" (StatVector.of_vector [1]) r1) in
  let r3 := snd (Result.set_scores "VMAF_feature" StatVector.new r2) in
  fst (Result.get_keys r3) = Returns ["VMAF_feature"; "adm2"; "vmaf"]%string.
Proof. reflexivity. Qed.

(** * Further properties of the translation unit *)

(** ** Growing and reading a series *)

(** X1. [append] never fails and adds the sample at the end: the size grows
    by one, [getVector] returns the old samples followed by the new one,
    [at] finds the new sample at the old size and the old samples where
    they were. *)
Theorem append_extends (s : StatVector.t) (e : R) :
  exists s' : StatVector.t,
    StatVector.append e s = (Returns tt, s')
    /\ StatVector.getVector s' = (Returns (StatVector.l s ++ [e]), s')
    /\ StatVector.size s' = (Returns (S (length (StatVector.l s))), s')
    /\ StatVector.at_ (length (StatVector.l s)) s' = (Returns e, s')
    /\ (forall i, (i < length (StatVector.l s))%nat ->
          StatVector.at_ i s' = (Returns (nth i (StatVector.l s) 0), s')).
Proof.
  exists (StatVector.mk (StatVector.l s ++ [e])).
  split; [reflexivity |].
  split; [reflexivity |].
  split.
  { unfold StatVector.size. run. cbn [StatVector.l].
    rewrite length_app. cbn. do 2 f_equal. lia. }
  split.
  { unfold StatVector.at_, checked_at. run. cbn [StatVector.l].
    rewrite nth_error_app2 by lia. now rewrite Nat.sub_diag. }
  intros i Hi. unfold StatVector.at_, checked_at. run. cbn [StatVector.l].
  rewrite nth_error_app1 by exact Hi.
  destruct (nth_error (StatVector.l s) i) eqn:E.
  - now rewrite (nth_error_nth _ _ 0 E).
  - apply nth_error_None in E. lia.
Qed.

(** Appending 2 to the series 3, 1. *)
Lemma append_extends_witness :
  exists s' : StatVector.t,
    StatVector.append 2 (StatVector.mk [3; 1]) = (Returns tt, s')
    /\ StatVector.getVector s' = (Returns [3; 1; 2], s')
    /\ StatVector.at_ 0 s' = (Returns 3, s').
Proof.
  destruct (append_extends (StatVector.mk [3; 1]) 2)
    as (s' & Happ & Hvec & _ & _ & Hold).
  exists s'.
  split; [exact Happ |].
  split; [exact Hvec |].
  apply (Hold 0%nat). cbn. lia.
Defined.

(** X2. [at] is bounds-checked: for an index below the size it returns the
    sample at that index, and for any other index it throws an exception of
    the [std::logic_error] family (which [compute_vmaf] reports as -4); in
    both cases the series is unchanged and the behaviour is defined. *)
Theorem at_checks_bounds (s : StatVector.t) (idx : nat) :
  ((idx < length (StatVector.l s))%nat ->
     StatVector.at_ idx s = (Returns (nth idx (StatVector.l s) 0), s))
  /\ ((length (StatVector.l s) <= idx)%nat ->
        exists e, StatVector.at_ idx s = (Throws e, s)
                  /\ exn_class e = logic_error
                  /\ forall (Inputs : Type) RunVmaf cpu_autodetect
                            (inputs : Inputs) disable_avx p lines,
                       RunVmaf inputs (selected_cpu cpu_autodetect disable_avx)
                       = (lines, Throws e) ->
                       fst (compute_vmaf Inputs RunVmaf cpu_autodetect inputs
                                         disable_avx p)
                       = Returns (-4)%Z).
Proof.
  unfold StatVector.at_, checked_at. run. split; intros Hidx.
  - destruct (nth_error (StatVector.l s) idx) eqn:E.
    + now rewrite (nth_error_nth _ _ 0 E).
    + apply nth_error_None in E. lia.
  - assert (E : nth_error (StatVector.l s) idx = None)
      by now apply nth_error_None.
    rewrite E. eexists. split; [reflexivity |]. split; [reflexivity |].
    intros Inputs RunVmaf cpu_autodetect inputs disable_avx p lines Hrun.
    now rewrite (compute_vmaf_engine_throws _ _ _ _ _ _ _ _ Hrun).
Qed.

(** Index 1 and index 2 of the series 3, 1. *)
Lemma at_checks_bounds_witness :
  StatVector.at_ 1 (StatVector.mk [3; 1])
  = (Returns 1, StatVector.mk [3; 1])
  /\ exists e, StatVector.at_ 2 (StatVector.mk [3; 1])
               = (Throws e, StatVector.mk [3; 1])
               /\ exn_class e = logic_error.
Proof.
  destruct (at_checks_bounds (StatVector.mk [3; 1]) 1) as (Hin & _).
  destruct (at_checks_bounds (StatVector.mk [3; 1]) 2) as (_ & Hout).
  split.
  - apply Hin. cbn. lia.
  - destruct Hout as (e & Hrun & Hclass & _); [cbn; lia |].
    exists e. split; assumption.
Defined.

Ltac split_outcomes :=
  repeat match goal with
         | |- context [if ?c then _ else _] => destruct c
         | |- context [match nth_error ?v ?i with _ => _ end] =>
             destruct (nth_error v i)
         end.

Lemma percentile_preserves_series (s : StatVector.t) (p : R) :
  snd (StatVector.percentile p s) = s.
Proof.
  destruct (StatVector.l s) as [|x v] eqn:E.
  - now rewrite (percentile_empty s p E).
  - assert (Hne : StatVector.l s <> []) by (rewrite E; discriminate).
    rewrite (percentile_nonempty s p Hne). cbv zeta.
    unfold bind, double_to_int, subscript, ret, undefined.
    split_outcomes; reflexivity.
Qed.

(** X3. No query changes the series: whatever they return or throw, [mean],
    [minimum], [harmonic_mean], [second_moment], [percentile], [var],
    [std], [at], [size] and [getVector] leave the samples as they were. *)
Theorem queries_preserve_series (s : StatVector.t) (p : R) (idx : nat) :
  snd (StatVector.mean s) = s
  /\ snd (StatVector.minimum s) = s
  /\ snd (StatVector.harmonic_mean s) = s
  /\ snd (StatVector.second_moment s) = s
  /\ snd (StatVector.percentile p s) = s
  /\ snd (StatVector.var s) = s
  /\ snd (StatVector.std s) = s
  /\ snd (StatVector.at_ idx s) = s
  /\ snd (StatVector.size s) = s
  /\ snd (StatVector.getVector s) = s.
Proof.
  split; [| split; [| split; [| split; [| split; [| split; [| split]]]]]].
  8: { unfold StatVector.at_, checked_at. run.
       split; [| split; reflexivity].
       destruct (nth_error (StatVector.l s) idx); reflexivity. }
  5: apply percentile_preserves_series.
  all: destruct (StatVector.l s) as [|x v] eqn:E;
    [ first [ now rewrite (mean_empty s E)
            | now rewrite (minimum_empty s E)
            | now rewrite (harmonic_mean_empty s E)
            | now rewrite (second_moment_empty s E)
            | now rewrite (var_empty s E)
            | now rewrite (std_empty s E) ]
    | assert (Hne : StatVector.l s <> []) by (rewrite E; discriminate) ].
  - now rewrite (mean_runs s Hne).
  - destruct (minimum_runs s Hne) as (m & -> & _). reflexivity.
  - now rewrite (harmonic_mean_runs s Hne).
  - now rewrite (second_moment_runs s Hne).
  - now rewrite (var_runs s Hne).
  - now rewrite (std_runs s _ (var_runs s Hne)).
Qed.

(** ** The order of the samples *)

(** X7. [percentile] and [minimum] depend on the samples, not on the order
    in which they were appended: two series that are permutations of each
    other give the same results. *)
Theorem order_of_samples_irrelevant (s1 s2 : StatVector.t) (p : R) :
  Permutation (StatVector.l s1) (StatVector.l s2) ->
  fst (StatVector.percentile p s1) = fst (StatVector.percentile p s2)
  /\ fst (StatVector.minimum s1) = fst (StatVector.minimum s2).
Proof.
  intros Hperm.
  destruct (StatVector.l s1) as [|x v] eqn:E1.
  - apply Permutation_nil in Hperm.
    rewrite (percentile_empty s1 p E1), (percentile_empty s2 p Hperm),
      (minimum_empty s1 E1), (minimum_empty s2 Hperm).
    split; reflexivity.
  - assert (Hne1 : StatVector.l s1 <> []) by (rewrite E1; discriminate).
    rewrite <- E1 in Hperm. clear E1 x v.
    assert (Hne2 : StatVector.l s2 <> []).
    { intros E. rewrite E in Hperm.
      apply Permutation_sym, Permutation_nil in Hperm. contradiction. }
    split.
    + pose proof (std_sort_ascending_copy (StatVector.l s1)) as [P S].
      assert (Hsort : std_sort (StatVector.l s2) = std_sort (StatVector.l s1)).
      { apply (ascending_copy_unique (StatVector.l s2)).
        - apply std_sort_ascending_copy.
        - split; [rewrite <- Hperm; exact P | exact S]. }
      rewrite (percentile_nonempty s1 p Hne1), (percentile_nonempty s2 p Hne2).
      cbv zeta. rewrite Hsort, <- (Permutation_length Hperm).
      unfold bind, double_to_int, subscript, ret, undefined.
      split_outcomes; reflexivity.
    + destruct (minimum_runs s1 Hne1) as (m1 & -> & Hin1 & Hle1).
      destruct (minimum_runs s2 Hne2) as (m2 & -> & Hin2 & Hle2).
      cbn [fst]. f_equal.
      apply (is_minimum_of_unique (StatVector.l s1)); split; try assumption.
      * rewrite Hperm. exact Hin2.
      * intros x Hx. apply Hle2. rewrite <- Hperm. exact Hx.
Qed.

(** The samples 3, 1, 2 and 1, 2, 3 have the same median. *)
Lemma order_of_samples_irrelevant_witness :
  fst (StatVector.percentile 50 (StatVector.mk [3; 1; 2]))
  = fst (StatVector.percentile 50 (StatVector.mk [1; 2; 3])).
Proof.
  apply (order_of_samples_irrelevant
           (StatVector.mk [3; 1; 2]) (StatVector.mk [1; 2; 3]) 50).
  exact (proj1 ascending_copy_3_1_2).
Defined.

(** ** Appending and then querying *)

(** X10. Appending a sample [e] to a non-empty series whose minimum is [m]
    gives a series whose minimum is the smaller of [m] and [e]. *)
Theorem append_updates_minimum (s : StatVector.t) (e : R) :
  StatVector.l s <> [] ->
  exists (m : R) (s' : StatVector.t),
    StatVector.minimum s = (Returns m, s)
    /\ StatVector.append e s = (Returns tt, s')
    /\ StatVector.minimum s' = (Returns (Rmin m e), s').
Proof.
  intros Hne.
  destruct (minimum_runs s Hne) as (m & Hmin & Hin & Hle).
  exists m, (StatVector.mk (StatVector.l s ++ [e])).
  assert (Hne' : StatVector.l (StatVector.mk (StatVector.l s ++ [e])) <> []).
  { cbn. intros E. apply app_eq_nil in E as [_ E]. discriminate. }
  split; [exact Hmin |].
  split; [reflexivity |].
  destruct (minimum_runs _ Hne') as (m' & -> & Hin' & Hle').
  cbn [StatVector.l] in *. do 2 f_equal.
  apply (is_minimum_of_unique (StatVector.l s ++ [e]));
    [split; assumption |].
  split.
  - apply in_or_app. unfold Rmin.
    destruct (Rle_dec m e); [now left | right; now left].
  - intros x Hx. apply in_app_or in Hx as [Hx|[<-|[]]].
    + specialize (Hle x Hx). pose proof (Rmin_l m e). lra.
    + apply Rmin_r.
Qed.

(** Appending 0 to the series 3, 1, 2 takes the minimum from 1 to 0. *)
Lemma append_updates_minimum_witness :
  exists (m : R) (s' : StatVector.t),
    StatVector.minimum (StatVector.mk [3; 1; 2])
    = (Returns m, StatVector.mk [3; 1; 2])
    /\ StatVector.append 0 (StatVector.mk [3; 1; 2]) = (Returns tt, s')
    /\ StatVector.minimum s' = (Returns (Rmin m 0), s').
Proof.
  apply (append_updates_minimum (StatVector.mk [3; 1; 2]) 0).
  cbn. discriminate.
Defined.

(** ** Storing and reading series in a result *)

Lemma strictly_ascending_unique (a b : list string) :
  StronglySorted string_lt a -> StronglySorted string_lt b ->
  (forall k, In k a <-> In k b) -> a = b.
Proof.
  intros Sa. revert b.
  induction Sa as [|x a Sa IH Hx]; intros b Sb Hab.
  - destruct b as [|y b]; [reflexivity |].
    exfalso. apply (proj2 (Hab y)). now left.
  - destruct Sb as [|y b Sb Hy].
    + exfalso. apply (proj1 (Hab x)). now left.
    + rewrite Forall_forall in Hx, Hy.
      assert (x = y).
      { destruct (proj1 (Hab x) (or_introl eq_refl)) as [->|Hxb];
          [reflexivity |].
        destruct (proj2 (Hab y) (or_introl eq_refl)) as [->|Hya];
          [reflexivity |].
        exfalso. apply (string_lt_irrefl x).
        eapply string_lt_trans; [apply Hx, Hya | apply Hy, Hxb]. }
      subst y. f_equal. apply IH; [exact Sb |].
      intros k. split; intros Hk.
      * destruct (proj1 (Hab k) (or_intror Hk)) as [->|H]; [| exact H].
        exfalso. exact (string_lt_irrefl k (Hx k Hk)).
      * destruct (proj2 (Hab k) (or_intror Hk)) as [->|H]; [| exact H].
        exfalso. exact (string_lt_irrefl k (Hy k Hk)).
Qed.

(** X11. [set_scores] never fails and binds the key to the series it is
    given: [get_scores] then returns that series without changing the
    result, [has_scores] answers true, a series stored before under the same
    key is replaced, and the bindings of the other keys, the policy and the
    frame count are as before. *)
Theorem set_scores_then_get_scores
    (r : Result.t) (key : string) (series : StatVector.t) :
  exists r' : Result.t,
    Result.set_scores key series r = (Returns tt, r')
    /\ Result.get_scores key r' = (Returns series, r')
    /\ Result.has_scores key r' = (Returns true, r')
    /\ (forall other, other <> key ->
          StringMap.find other (Result.d r')
          = StringMap.find other (Result.d r))
    /\ (forall later, exists r'',
          Result.set_scores key later r' = (Returns tt, r'')
          /\ Result.get_scores key r'' = (Returns later, r''))
    /\ Result.score_aggregate_method r' = Result.score_aggregate_method r
    /\ Result.num_frms r' = Result.num_frms r.
Proof.
  exists (Result.mk (StringMap.add key series (Result.d r))
                    (Result.score_aggregate_method r) (Result.num_frms r)).
  split; [reflexivity |].
  split.
  { apply get_scores_bound. cbn [Result.d].
    now apply StringMapFacts.add_eq_o. }
  split.
  { rewrite has_scores_runs, StringMapFacts.mem_find_b. cbn [Result.d].
    now rewrite StringMapFacts.add_eq_o. }
  split.
  { intros other Hother. cbn [Result.d].
    apply StringMapFacts.add_neq_o. congruence. }
  split; [| split; reflexivity].
  intros later. eexists. split; [reflexivity |].
  apply get_scores_bound. cbn [Result.d].
  now apply StringMapFacts.add_eq_o.
Qed.

(** Storing under "psnr" leaves what is stored under "vmaf". *)
Lemma set_scores_then_get_scores_witness :
  let r := snd (Result.set_scores "vmaf" (StatVector.mk [90]) Result.new) in
  exists r' : Result.t,
    Result.set_scores "psnr" (StatVector.mk [40; 41]) r = (Returns tt, r')
    /\ Result.get_scores "psnr" r' = (Returns (StatVector.mk [40; 41]), r')
    /\ StringMap.find "vmaf"%string (Result.d r')
       = Some (StatVector.mk [90]).
Proof.
  intros r.
  destruct (set_scores_then_get_scores r "psnr" (StatVector.mk [40; 41]))
    as (r' & Hset & Hget & _ & Hother & _).
  exists r'. split; [exact Hset |]. split; [exact Hget |].
  rewrite (Hother "vmaf"%string); [reflexivity | discriminate].
Defined.

(** X12. After [set_scores key], [get_keys] lists [key] and the names listed
    before, and nothing else; when [key] already had an entry the list is
    the same as before. *)
Theorem set_scores_keys
    (r : Result.t) (key : string) (series : StatVector.t) :
  exists (r' : Result.t) (before after : list string),
    Result.set_scores key series r = (Returns tt, r')
    /\ Result.get_keys r = (Returns before, r)
    /\ Result.get_keys r' = (Returns after, r')
    /\ (forall k, In k after <-> k = key \/ In k before)
    /\ (In key before -> after = before).
Proof.
  exists (Result.mk (StringMap.add key series (Result.d r))
                    (Result.score_aggregate_method r) (Result.num_frms r)).
  exists (map fst (StringMap.elements (Result.d r))).
  exists (map fst (StringMap.elements
                     (StringMap.add key series (Result.d r)))).
  split; [reflexivity |].
  split; [apply get_keys_runs |].
  split; [apply get_keys_runs |].
  assert (Hmem : forall k,
             In k (map fst (StringMap.elements
                              (StringMap.add key series (Result.d r))))
             <-> k = key \/ In k (map fst (StringMap.elements (Result.d r)))).
  { intros k. rewrite !elements_keys_In, StringMapFacts.add_in_iff.
    split; intros [H|H]; auto. }
  split; [exact Hmem |].
  intros Hin. apply strictly_ascending_unique.
  - apply elements_keys_sorted.
  - apply elements_keys_sorted.
  - intros k. rewrite Hmem. split; [intros [->|H]; assumption | now right].
Qed.

(** Storing "adm2" in a result that holds "vmaf" puts it first. *)
Lemma set_scores_keys_witness :
  let r := snd (Result.set_scores "vmaf" (StatVector.mk [90]) Result.new) in
  exists (r' : Result.t) (after : list string),
    Result.set_scores "adm2" (StatVector.mk [1]) r = (Returns tt, r')
    /\ Result.get_keys r' = (Returns after, r')
    /\ In "adm2"%string after /\ In "vmaf"%string after.
Proof.
  intros r.
  destruct (set_scores_keys r "adm2" (StatVector.mk [1]))
    as (r' & before & after & Hset & Hbefore & Hafter & Hmem & _).
  exists r', after.
  split; [exact Hset |]. split; [exact Hafter |].
  split; apply Hmem; [now left | right].
  cbn in Hbefore. injection Hbefore as <-. now left.
Defined.

(** X13. [get_score] on a key without entry throws the empty-series error
    under every policy, and leaves behind an entry that binds the key to an
    empty series: [has_scores] is true afterwards, and asking again throws
    again without further change. *)
Theorem get_score_of_unset_key (r : Result.t) (key : string) :
  StringMap.find key (Result.d r) = None ->
  exists r' : Result.t,
    Result.get_score key r = (Throws empty_series_error, r')
    /\ Result.has_scores key r = (Returns false, r)
    /\ Result.has_scores key r' = (Returns true, r')
    /\ StringMap.find key (Result.d r') = Some StatVector.new
    /\ Result.get_score key r' = (Throws empty_series_error, r').
Proof.
  intros Hf.
  set (r' := Result.mk (StringMap.add key StatVector.new (Result.d r))
                       (Result.score_aggregate_method r) (Result.num_frms r)).
  assert (Hf' : StringMap.find key (Result.d r') = Some StatVector.new).
  { cbn [r' Result.d]. now apply StringMapFacts.add_eq_o. }
  exists r'.
  split.
  { unfold Result.get_score. unfold bind at 1.
    rewrite (get_scores_unbound r key Hf). fold r'. run.
    unfold Result.on_local.
    destruct (Result.score_aggregate_method r'); reflexivity. }
  split.
  { rewrite has_scores_runs, StringMapFacts.mem_find_b, Hf. reflexivity. }
  split.
  { rewrite has_scores_runs, StringMapFacts.mem_find_b, Hf'. reflexivity. }
  split; [exact Hf' |].
  unfold Result.get_score. unfold bind at 1.
  rewrite (get_scores_bound r' key _ Hf'). run.
  unfold Result.on_local.
  destruct (Result.score_aggregate_method r'); reflexivity.
Qed.

(** Asking a new result for the score of "vmaf". *)
Lemma get_score_of_unset_key_witness :
  exists r' : Result.t,
    Result.get_score "vmaf" Result.new = (Throws empty_series_error, r')
    /\ Result.has_scores "vmaf" r' = (Returns true, r').
Proof.
  destruct (get_score_of_unset_key Result.new "vmaf" eq_refl)
    as (r' & Hscore & _ & Hhas & _).
  exists r'. split; [exact Hscore | exact Hhas].
Defined.

(** X14. [setScoreAggregateMethod] changes the policy and nothing else: the
    map and the frame count are as before, and the next [get_score] of a
    bound key applies the new policy to the series stored earlier, without
    it being stored again. *)
Theorem setScoreAggregateMethod_then_get_score
    (r : Result.t) (method_ : ScoreAggregateMethod)
    (key : string) (series : StatVector.t) :
  StringMap.find key (Result.d r) = Some series ->
  exists r' : Result.t,
    Result.setScoreAggregateMethod method_ r = (Returns tt, r')
    /\ Result.d r' = Result.d r
    /\ Result.num_frms r' = Result.num_frms r
    /\ Result.score_aggregate_method r' = method_
    /\ Result.get_score key r'
       = (fst (match method_ with
               | MINIMUM => StatVector.minimum series
               | HARMONIC_MEAN => StatVector.harmonic_mean series
               | MEAN => StatVector.mean series
               end), r').
Proof.
  intros Hf.
  exists (Result.mk (Result.d r) method_ (Result.num_frms r)).
  repeat (split; [reflexivity |]).
  unfold Result.get_score. unfold bind at 1.
  rewrite (get_scores_bound
             (Result.mk (Result.d r) method_ (Result.num_frms r))
             key series Hf). run.
  unfold Result.on_local. cbn [Result.score_aggregate_method].
  destruct method_; reflexivity.
Qed.

(** The series 3, 1, 2 under "vmaf": after switching to MINIMUM the score
    is what [minimum] returns. *)
Lemma setScoreAggregateMethod_then_get_score_witness :
  let series := StatVector.mk [3; 1; 2] in
  let r := snd (Result.set_scores "vmaf" series Result.new) in
  exists r' : Result.t,
    Result.setScoreAggregateMethod MINIMUM r = (Returns tt, r')
    /\ Result.get_score "vmaf" r' = (fst (StatVector.minimum series), r').
Proof.
  intros series r.
  destruct (setScoreAggregateMethod_then_get_score
              r MINIMUM "vmaf" series eq_refl)
    as (r' & Hset & _ & _ & _ & Hscore).
  exists r'. split; [exact Hset | exact Hscore].
Defined.

(** X15. [set_num_frms] stores its [unsigned int] argument, that is the
    number modulo 2^32, and [get_num_frms] returns it: the number itself
    when it is in range; the map and the policy are untouched.  On a newly
    constructed result, where the constructor has not initialised the
    member, [get_num_frms] has no defined value. *)
Theorem num_frms_round_trip (r : Result.t) (n : Z) :
  exists r' : Result.t,
    Result.set_num_frms n r = (Returns tt, r')
    /\ Result.get_num_frms r' = (Returns (n mod 2 ^ 32)%Z, r')
    /\ (0 <= n mod 2 ^ 32 < 2 ^ 32)%Z
    /\ ((0 <= n < 2 ^ 32)%Z -> Result.get_num_frms r' = (Returns n, r'))
    /\ Result.d r' = Result.d r
    /\ Result.score_aggregate_method r' = Result.score_aggregate_method r
    /\ Result.get_num_frms Result.new = (Undefined, Result.new).
Proof.
  exists (Result.mk (Result.d r) (Result.score_aggregate_method r)
                    (Some (n mod 2 ^ 32)%Z)).
  split; [reflexivity |].
  split; [reflexivity |].
  split; [apply Z.mod_pos_bound; lia |].
  split; [| repeat split].
  intros Hn. unfold Result.get_num_frms. run. cbn [Result.num_frms].
  now rewrite Z.mod_small.
Qed.

(** A run of 1500 frames. *)
Lemma num_frms_round_trip_witness :
  exists r' : Result.t,
    Result.set_num_frms 1500 Result.new = (Returns tt, r')
    /\ Result.get_num_frms r' = (Returns 1500%Z, r').
Proof.
  destruct (num_frms_round_trip Result.new 1500)
    as (r' & Hset & _ & _ & Hget & _).
  exists r'. split; [exact Hset |]. apply Hget. lia.
Defined.

(** ** What a call of compute_vmaf can do *)





(** ** Successive calls of the factory *)

(** X17. Two successive calls of the factory return two different
    addresses, and after the second call both runners are in the free
    store, each of the variant and with the path its own descriptor asked
    for: the second call does not disturb the first runner. *)
Theorem createVmafQualityRunner_twice (m1 m2 : VmafModel) (h : heap) :
  exists (a1 a2 : nat) (h1 h2 : heap),
    createVmafQualityRunner m1 h = (Returns (Some a1), h1)
    /\ createVmafQualityRunner m2 h1 = (Returns (Some a2), h2)
    /\ a1 <> a2
    /\ nth_error h2 a1
       = Some (if enable_conf_interval m1
               then BootstrapVmafQualityRunner (path m1)
               else VmafQualityRunner (path m1))
    /\ nth_error h2 a2
       = Some (if enable_conf_interval m2
               then BootstrapVmafQualityRunner (path m2)
               else VmafQualityRunner (path m2))
    /\ (forall b, (b < length h)%nat -> nth_error h2 b = nth_error h b).
Proof.
  set (r1 := if enable_conf_interval m1
             then BootstrapVmafQualityRunner (path m1)
             else VmafQualityRunner (path m1)).
  set (r2 := if enable_conf_interval m2
             then BootstrapVmafQualityRunner (path m2)
             else VmafQualityRunner (path m2)).
  exists (length h), (length (h ++ [r1])), (h ++ [r1]), ((h ++ [r1]) ++ [r2]).
  split.
  { unfold createVmafQualityRunner, new_runner, r1. run.
    destruct (enable_conf_interval m1); reflexivity. }
  split.
  { unfold createVmafQualityRunner, new_runner, r2. run.
    destruct (enable_conf_interval m2); reflexivity. }
  split; [rewrite length_app; cbn; lia |].
  split.
  { rewrite nth_error_app1 by (rewrite length_app; cbn; lia).
    rewrite nth_error_app2 by lia. now rewrite Nat.sub_diag. }
  split.
  { rewrite nth_error_app2 by lia. now rewrite Nat.sub_diag. }
  intros b Hb.
  rewrite nth_error_app1 by (rewrite length_app; cbn; lia).
  now apply nth_error_app1.
Qed.

(** A standard and a bootstrap runner created one after the other. *)
Lemma createVmafQualityRunner_twice_witness :
  exists (a1 a2 : nat) (h1 h2 : heap),
    createVmafQualityRunner (mkVmafModel "a.pkl" false) []
    = (Returns (Some a1), h1)
    /\ createVmafQualityRunner (mkVmafModel "b.pkl" true) h1
       = (Returns (Some a2), h2)
    /\ a1 <> a2
    /\ nth_error h2 a1 = Some (VmafQualityRunner "a.pkl")
    /\ nth_error h2 a2 = Some (BootstrapVmafQualityRunner "b.pkl").
Proof.
  destruct (createVmafQualityRunner_twice
              (mkVmafModel "a.pkl" false) (mkVmafModel "b.pkl" true) [])
    as (a1 & a2 & h1 & h2 & H1 & H2 & Hneq & Hr1 & Hr2 & _).
  exists a1, a2, h1, h2.
  split; [exact H1 |]. split; [exact H2 |]. split; [exact Hneq |].
  split; [exact Hr1 | exact Hr2].
Defined.

(** ** More on percentile *)

Lemma clamp_0_100_below (p : R) : p <= 0 -> clamp_0_100 p = clamp_0_100 0.
Proof.
  intros H. rewrite <- !clamp_0_100_cases.
  destruct (Rlt_dec p 0), (Rgt_dec p 100), (Rlt_dec 0 0), (Rgt_dec 0 100);
    lra.
Qed.

Lemma clamp_0_100_above (p : R) :
  100 <= p -> clamp_0_100 p = clamp_0_100 100.
Proof.
  intros H. rewrite <- !clamp_0_100_cases.
  destruct (Rlt_dec p 0), (Rgt_dec p 100), (Rlt_dec 100 0),
    (Rgt_dec 100 100); lra.
Qed.

Lemma percentile_clamped (s : StatVector.t) (p : R) :
  StatVector.percentile p s = StatVector.percentile (clamp_0_100 p) s.
Proof.
  destruct (StatVector.l s) as [|x v] eqn:E.
  - now rewrite !(percentile_empty s _ E).
  - assert (Hne : StatVector.l s <> []) by (rewrite E; discriminate).
    rewrite !(percentile_nonempty s _ Hne).
    unfold percentile_position. now rewrite clamp_0_100_idempotent.
Qed.

(** X19. A [p] outside [[0,100]] is clamped: on every series, empty or
    not, [percentile p] behaves as [percentile 0] when [p <= 0] and as
    [percentile 100] when [p >= 100]. *)
Theorem percentile_clamps (s : StatVector.t) (p : R) :
  (p <= 0 -> StatVector.percentile p s = StatVector.percentile 0 s)
  /\ (100 <= p -> StatVector.percentile p s = StatVector.percentile 100 s).
Proof.
  split; intros Hp.
  - rewrite (percentile_clamped s p), (percentile_clamped s 0).
    now rewrite (clamp_0_100_below p Hp).
  - rewrite (percentile_clamped s p), (percentile_clamped s 100).
    now rewrite (clamp_0_100_above p Hp).
Qed.

(** -5 is treated as 0 and 250 as 100. *)
Lemma percentile_clamps_witness :
  StatVector.percentile (-5) (StatVector.mk [3; 1; 2])
  = StatVector.percentile 0 (StatVector.mk [3; 1; 2])
  /\ StatVector.percentile 250 (StatVector.mk [3; 1; 2])
     = StatVector.percentile 100 (StatVector.mk [3; 1; 2]).
Proof.
  split.
  - apply (percentile_clamps (StatVector.mk [3; 1; 2]) (-5)). lra.
  - apply (percentile_clamps (StatVector.mk [3; 1; 2]) 250). lra.
Defined.
